(** * PF2 font reader ([additional/pf2.py]): a shallow embedding

    The Python module reads a PF2 bitmap font: four byte-codec
    functions, a constructor [PF2.__init__] that scans tagged sections
    up to the [DATA] tag, [PF2.get_char] that decodes one glyph at an
    offset taken from the character index, and [PF2.close].

    Python integers are unbounded, so they are [Z] with no wrap-around.
    [bytes] values are [list byte]; indexing a [bytes] value yields an
    integer in 0..255.  Exceptions are an explicit result type, and the
    file object is a record threaded through every call.  The
    [while True] loop of the constructor runs on fuel; every pass that
    continues consumes a section header, so the fuel the constructor
    passes never runs out ([init_not_Diverge]).

    The definitions come first: the embedding of the module, the
    vocabulary of the statements, and the sample files.  The properties
    follow, one section per topic. *)

From Stdlib Require Import ZArith List Bool Lia.
From Stdlib Require Import Init.Byte.
From stdpp Require Import base option list gmap.

Open Scope Z_scope.

(** ** Exceptions and results *)

Inductive exn : Set :=
  | IndexError      (* b[i] out of range *)
  | KeyError        (* d[k] with k not in d *)
  | AttributeError  (* self.x read before it was ever assigned *)
  | ValueError      (* operation on a closed file, negative BytesIO seek *)
  | OSError.        (* negative seek on a file opened from disk *)

(** [Diverge] is only produced by the fuel of the [while True] loop; it
    is shown unreachable for the fuel [__init__] passes. *)
Inductive result (A : Type) : Type :=
  | Ok (a : A)
  | Raise (e : exn)
  | Diverge.
Arguments Ok {A} a.
Arguments Raise {A} e.
Arguments Diverge {A}.

#[global] Instance result_ret : MRet result := fun A a => Ok a.
#[global] Instance result_bind : MBind result := fun A B f m =>
  match m with
  | Ok a => f a
  | Raise e => Raise e
  | Diverge => Diverge
  end.

Definition is_ok {A} (r : result A) : bool :=
  match r with Ok _ => true | _ => false end.

(** ** Bytes *)

Definition bytes := list byte.

Definition byte_val (b : byte) : Z := Z.of_N (Byte.to_N b).

(** [b[i]] on a [bytes] value. *)
Definition getitem (b : bytes) (i : nat) : result Z :=
  match b !! i with
  | Some x => Ok (byte_val x)
  | None => Raise IndexError
  end.

Fixpoint bytes_eqb (a b : bytes) : bool :=
  match a, b with
  | [], [] => true
  | x :: a', y :: b' => Byte.eqb x y && bytes_eqb a' b'
  | _, _ => false
  end.

(** ** Byte codec (pf2.py, lines 6-27) *)

Definition uint32be (b : bytes) : result Z :=
  b0 ← getitem b 0;
  b1 ← getitem b 1;
  b2 ← getitem b 2;
  b3 ← getitem b 3;
  Ok (Z.shiftl b0 32 + Z.shiftl b1 16 + Z.shiftl b2 8 + b3).

Definition int32be (b : bytes) : result Z :=
  u ← uint32be b;
  Ok (u - Z.shiftl (Z.land (Z.shiftr u 31) 1) 32).

Definition uint16be (b : bytes) : result Z :=
  b0 ← getitem b 0;
  b1 ← getitem b 1;
  Ok (Z.shiftl b0 8 + b1).

Definition int16be (b : bytes) : result Z :=
  u ← uint16be b;
  Ok (u - Z.shiftl (Z.land (Z.shiftr u 15) 1) 16).

(** The values the docstrings name: the unsigned big-endian reading of
    a byte string and its two's-complement reading at width [w]. *)
Definition be_unsigned (b : bytes) : Z :=
  fold_left (fun acc x => acc * 256 + byte_val x) b 0.

Definition twos_complement (w : Z) (u : Z) : Z :=
  if Z.testbit u (w - 1) then u - 2 ^ w else u.

(** ** File objects

    [io.BufferedReader] (from [open(path, 'rb')]) and [io.BytesIO] share
    one record.  [reads] is a trace of the [read] calls made on the
    object, newest first: the size asked for and the number of bytes
    returned.  It is not visible to the program; the theorems use it to
    speak about which reads happened and which came back short. *)

Inductive io_kind : Set := DiskFile | BytesIO.

Record stream : Type := Stream {
  kind : io_kind;
  content : bytes;
  pos : nat;
  closed : bool;
  reads : list (Z * nat)
}.

(** [open(path, 'rb')] on a file holding [c], and [io.BytesIO(c)]. *)
Definition open_rb (c : bytes) : stream := Stream DiskFile c 0 false [].
Definition new_BytesIO (c : bytes) : stream := Stream BytesIO c 0 false [].

(** [f.read(n)]: at most [n] bytes from the cursor, all remaining bytes
    when [n] is negative ([f.read()] is [f.read(-1)]); fewer than [n]
    at end of file, without an exception.

    This is the read of a request the allocator grants.  A
    [BufferedReader] sets aside the [n] bytes it is asked for before it
    reads, and a request the machine cannot meet ends in [MemoryError];
    which requests those are depends on the machine and is not in the
    module.  The module asks for 1, 2, 4 and 12 bytes, for a bitmap of
    less than 2^29 bytes, and at line 91 for a payload of [data_length]
    bytes, the one size that comes out of [int32be]: below 2^24 when
    the first byte of the length field is 0, and 2^32 or more
    otherwise.  The statements that say how a pass over a payload or a
    whole scan ends are therefore given for payload requests below
    2^32 ([payload_request], [payload_requests]) and are silent on the
    larger ones. *)
Definition read (n : Z) (f : stream) : result (bytes * stream) :=
  if closed f then Raise ValueError
  else
    let avail := drop (pos f) (content f) in
    let bs := if n <? 0 then avail else take (Z.to_nat n) avail in
    Ok (bs, Stream (kind f) (content f) (pos f + length bs)%nat (closed f)
                   ((n, length bs) :: reads f)).

Definition tell (f : stream) : result Z :=
  if closed f then Raise ValueError else Ok (Z.of_nat (pos f)).

(** [f.seek(n)]: absolute.  A negative target is [OSError] (EINVAL) on
    a disk file and [ValueError] on a [BytesIO]; a target past the end
    is accepted. *)
Definition seek (n : Z) (f : stream) : result stream :=
  if closed f then Raise ValueError
  else if n <? 0 then
    Raise (match kind f with DiskFile => OSError | BytesIO => ValueError end)
  else Ok (Stream (kind f) (content f) (Z.to_nat n) (closed f) (reads f)).

(** [f.close()]: never raises, also on a closed object. *)
Definition close_stream (f : stream) : stream :=
  Stream (kind f) (content f) (pos f) true (reads f).

(** ** The two classes (pf2.py, lines 29-60)

    The class bodies only carry annotations, so an attribute exists on
    an instance once it has been assigned: [None] below is "never
    assigned", and reading it raises [AttributeError].  [is_pf2],
    [missing_character_code] and [in_memory] are assigned before
    [__init__] can return. *)

Record Character : Type := mkCharacter {
  width : Z;
  height : Z;
  x_offset : Z;
  y_offset : Z;
  device_width : Z;
  bitmap_data : bytes
}.

Record PF2 : Type := mkPF2 {
  is_pf2 : bool;
  missing_character_code : Z;
  in_memory : bool;
  font_name : option bytes;
  family : option bytes;
  weight : option bytes;
  slant : option bytes;
  point_size : option Z;
  max_width : option Z;
  max_height : option Z;
  ascent : option Z;
  descent : option Z;
  character_index : option (gmap Z (Z * Z));
  data_offset : option Z;
  data_io : option stream
}.

Definition attr {A} (a : option A) : result A :=
  match a with Some x => Ok x | None => Raise AttributeError end.

Definition set_font_name (v : bytes) (s : PF2) : PF2 :=
  mkPF2 (is_pf2 s) (missing_character_code s) (in_memory s)
        (Some v) (family s) (weight s) (slant s)
        (point_size s) (max_width s) (max_height s) (ascent s) (descent s)
        (character_index s) (data_offset s) (data_io s).
Definition set_family (v : bytes) (s : PF2) : PF2 :=
  mkPF2 (is_pf2 s) (missing_character_code s) (in_memory s)
        (font_name s) (Some v) (weight s) (slant s)
        (point_size s) (max_width s) (max_height s) (ascent s) (descent s)
        (character_index s) (data_offset s) (data_io s).
Definition set_weight (v : bytes) (s : PF2) : PF2 :=
  mkPF2 (is_pf2 s) (missing_character_code s) (in_memory s)
        (font_name s) (family s) (Some v) (slant s)
        (point_size s) (max_width s) (max_height s) (ascent s) (descent s)
        (character_index s) (data_offset s) (data_io s).
Definition set_slant (v : bytes) (s : PF2) : PF2 :=
  mkPF2 (is_pf2 s) (missing_character_code s) (in_memory s)
        (font_name s) (family s) (weight s) (Some v)
        (point_size s) (max_width s) (max_height s) (ascent s) (descent s)
        (character_index s) (data_offset s) (data_io s).
Definition set_point_size (v : Z) (s : PF2) : PF2 :=
  mkPF2 (is_pf2 s) (missing_character_code s) (in_memory s)
        (font_name s) (family s) (weight s) (slant s)
        (Some v) (max_width s) (max_height s) (ascent s) (descent s)
        (character_index s) (data_offset s) (data_io s).
Definition set_max_width (v : Z) (s : PF2) : PF2 :=
  mkPF2 (is_pf2 s) (missing_character_code s) (in_memory s)
        (font_name s) (family s) (weight s) (slant s)
        (point_size s) (Some v) (max_height s) (ascent s) (descent s)
        (character_index s) (data_offset s) (data_io s).
Definition set_max_height (v : Z) (s : PF2) : PF2 :=
  mkPF2 (is_pf2 s) (missing_character_code s) (in_memory s)
        (font_name s) (family s) (weight s) (slant s)
        (point_size s) (max_width s) (Some v) (ascent s) (descent s)
        (character_index s) (data_offset s) (data_io s).
Definition set_ascent (v : Z) (s : PF2) : PF2 :=
  mkPF2 (is_pf2 s) (missing_character_code s) (in_memory s)
        (font_name s) (family s) (weight s) (slant s)
        (point_size s) (max_width s) (max_height s) (Some v) (descent s)
        (character_index s) (data_offset s) (data_io s).
Definition set_descent (v : Z) (s : PF2) : PF2 :=
  mkPF2 (is_pf2 s) (missing_character_code s) (in_memory s)
        (font_name s) (family s) (weight s) (slant s)
        (point_size s) (max_width s) (max_height s) (ascent s) (Some v)
        (character_index s) (data_offset s) (data_io s).
Definition set_character_index (v : gmap Z (Z * Z)) (s : PF2) : PF2 :=
  mkPF2 (is_pf2 s) (missing_character_code s) (in_memory s)
        (font_name s) (family s) (weight s) (slant s)
        (point_size s) (max_width s) (max_height s) (ascent s) (descent s)
        (Some v) (data_offset s) (data_io s).
Definition set_data_offset (v : Z) (s : PF2) : PF2 :=
  mkPF2 (is_pf2 s) (missing_character_code s) (in_memory s)
        (font_name s) (family s) (weight s) (slant s)
        (point_size s) (max_width s) (max_height s) (ascent s) (descent s)
        (character_index s) (Some v) (data_io s).
Definition set_data_io (v : stream) (s : PF2) : PF2 :=
  mkPF2 (is_pf2 s) (missing_character_code s) (in_memory s)
        (font_name s) (family s) (weight s) (slant s)
        (point_size s) (max_width s) (max_height s) (ascent s) (descent s)
        (character_index s) (data_offset s) (Some v).

(** ** Constants of the format *)

(** [b'FILE\x00\x00\x00\x04PFF2'] *)
Definition magic : bytes :=
  [x46; x49; x4c; x45; x00; x00; x00; x04; x50; x46; x46; x32].

Definition tag_CHIX : bytes := [x43; x48; x49; x58].
Definition tag_DATA : bytes := [x44; x41; x54; x41].
Definition tag_NAME : bytes := [x4e; x41; x4d; x45].
Definition tag_FAMI : bytes := [x46; x41; x4d; x49].
Definition tag_WEIG : bytes := [x57; x45; x49; x47].
Definition tag_SLAN : bytes := [x53; x4c; x41; x4e].
Definition tag_PTSZ : bytes := [x50; x54; x53; x5a].
Definition tag_MAXW : bytes := [x4d; x41; x58; x57].
Definition tag_MAXH : bytes := [x4d; x41; x58; x48].
Definition tag_ASCE : bytes := [x41; x53; x43; x45].
Definition tag_DESC : bytes := [x44; x45; x53; x43].

(** ** [PF2.__init__] (pf2.py, lines 62-109) *)

(** Lines 74-80: the body of [for _ in range(n)], run [n] times on the
    dictionary assigned to [self.character_index]. *)
Fixpoint read_index (n : nat) (idx : gmap Z (Z * Z)) (file : stream)
  : result (gmap Z (Z * Z) * stream) :=
  match n with
  | O => Ok (idx, file)
  | S n' =>
      '(b, file) ← read 4 file;
      code_point ← int32be b;
      '(b, file) ← read 1 file;
      compression ← getitem b 0;
      '(b, file) ← read 4 file;
      offset ← int32be b;
      read_index n' (<[code_point := (compression, offset)]> idx) file
  end.

(** Lines 92-109: the [if]/[elif] chain on the section name. *)
Definition set_metadata (name data : bytes) (self : PF2) : result PF2 :=
  if bytes_eqb name tag_NAME then Ok (set_font_name data self)
  else if bytes_eqb name tag_FAMI then Ok (set_family data self)
  else if bytes_eqb name tag_WEIG then Ok (set_weight data self)
  else if bytes_eqb name tag_SLAN then Ok (set_slant data self)
  else if bytes_eqb name tag_PTSZ then v ← uint16be data; Ok (set_point_size v self)
  else if bytes_eqb name tag_MAXW then v ← uint16be data; Ok (set_max_width v self)
  else if bytes_eqb name tag_MAXH then v ← uint16be data; Ok (set_max_height v self)
  else if bytes_eqb name tag_ASCE then v ← uint16be data; Ok (set_ascent v self)
  else if bytes_eqb name tag_DESC then v ← uint16be data; Ok (set_descent v self)
  else Ok self.

(** How one pass through the body of [while True] ends. *)
Inductive loop_ctl : Type :=
  | Continue (self : PF2) (file : stream)
  | Break (self : PF2) (file : stream).

(** Lines 72-109: what the loop body does with a section once its name
    and length are read. *)
Definition dispatch (read_to_mem : bool) (self : PF2) (name : bytes)
    (data_length : Z) (file : stream) : result loop_ctl :=
  if bytes_eqb name tag_CHIX then
    '(idx, file) ← read_index (Z.to_nat (data_length / (4 + 1 + 4))) ∅ file;
    Ok (Continue (set_character_index idx self) file)
  else if bytes_eqb name tag_DATA then
    if read_to_mem then
      '(rest, file) ← read (-1) file;
      let self := set_data_io (new_BytesIO rest) self in
      p ← tell file;
      let self := set_data_offset (- p) self in
      Ok (Break self (close_stream file))
    else
      let self := set_data_io file self in
      let self := set_data_offset 0 self in
      Ok (Break self file)
  else
    '(data, file) ← read data_length file;
    self ← set_metadata name data self;
    Ok (Continue self file).

(** Lines 70-109: one pass through the loop body. *)
Definition scan_step (read_to_mem : bool) (self : PF2) (file : stream)
  : result loop_ctl :=
  '(name, file) ← read 4 file;
  '(b, file) ← read 4 file;
  data_length ← int32be b;
  dispatch read_to_mem self name data_length file.

(** Lines 69-109: [while True]. *)
Fixpoint scan (fuel : nat) (read_to_mem : bool) (self : PF2) (file : stream)
  : result (PF2 * stream) :=
  match fuel with
  | O => Diverge
  | S fuel' =>
      c ← scan_step read_to_mem self file;
      match c with
      | Continue self file => scan fuel' read_to_mem self file
      | Break self file => Ok (self, file)
      end
  end.

(** Lines 63-66: the instance once [missing_character_code],
    [in_memory] and [is_pf2] are assigned and nothing else is. *)
Definition new_PF2 (valid : bool) (missing_character : Z) (read_to_mem : bool)
  : PF2 :=
  mkPF2 valid missing_character read_to_mem
        None None None None None None None None None None None None.

(** Lines 62-68.  [path] is given as the bytes of the file it names and
    [missing_character] as [ord(missing_character)].  The result pairs
    the instance with the final state of the local [file]; in streaming
    mode that is the object [self.data_io] names.  Every pass of the
    loop that continues has consumed the eight bytes of a section
    header, which is why the fuel below is enough ([scan_terminates]). *)
Definition __init__ (path : bytes) (read_to_mem : bool) (missing_character : Z)
  : result (PF2 * stream) :=
  let file := open_rb path in
  '(b, file) ← read 12 file;
  let self := new_PF2 (bytes_eqb b magic) missing_character read_to_mem in
  if negb (is_pf2 self) then Ok (self, file)
  else scan (S (length path)) read_to_mem self file.

(** ** [PF2.get_char] (pf2.py, lines 111-129)

    [char] is given as [ord(char)].  The instance comes back with the
    file object as the call left it. *)
Definition get_char (self : PF2) (char_point : Z) : result (Character * PF2) :=
  index ← attr (character_index self);
  info ← match index !! char_point with
         | Some info => Ok info
         | None =>
             match index !! missing_character_code self with
             | Some info => Ok info
             | None => Raise KeyError
             end
         end;
  let '(_compression, offset) := info in
  data ← attr (data_io self);
  correction ← attr (data_offset self);
  data ← seek (offset + correction) data;
  '(b, data) ← read 2 data;
  width ← uint16be b;
  '(b, data) ← read 2 data;
  height ← uint16be b;
  '(b, data) ← read 2 data;
  x_offset ← int16be b;
  '(b, data) ← read 2 data;
  y_offset ← int16be b;
  '(b, data) ← read 2 data;
  device_width ← int16be b;
  '(bitmap_data, data) ← read ((width * height + 7) / 8) data;
  Ok (mkCharacter width height x_offset y_offset device_width bitmap_data,
      set_data_io data self).

(** ** [PF2.close] (pf2.py, lines 133-136) *)
Definition close (self : PF2) : result PF2 :=
  if negb (in_memory self) then
    data ← attr (data_io self);
    Ok (set_data_io (close_stream data) self)
  else Ok self.

(** * Vocabulary of the statements *)

(** Bytes between the cursor and the end of the file. *)
Definition remaining (f : stream) : nat := (length (content f) - pos f)%nat.

(** Lines 114-116: the index entry a lookup uses. *)
Definition entry_for (index : gmap Z (Z * Z)) (missing cp : Z) : option (Z * Z) :=
  match index !! cp with
  | Some e => Some e
  | None => index !! missing
  end.

(** [g] is the glyph record that starts at byte [p] of [c]: five 2-byte
    header fields in order, then the bytes of the bitmap, as many of
    the [(width * height + 7) / 8] as [c] still holds. *)
Definition decoded_at (c : bytes) (p : nat) (g : Character) : Prop :=
  uint16be (take 2 (drop p c)) = Ok (width g)
  ∧ uint16be (take 2 (drop (p + 2) c)) = Ok (height g)
  ∧ int16be (take 2 (drop (p + 4) c)) = Ok (x_offset g)
  ∧ int16be (take 2 (drop (p + 6) c)) = Ok (y_offset g)
  ∧ int16be (take 2 (drop (p + 8) c)) = Ok (device_width g)
  ∧ bitmap_data g =
      take (Z.to_nat ((width g * height g + 7) / 8)) (drop (p + 10) c).

(** The file object after a lookup that started at byte [p]. *)
Definition after_lookup (d : stream) (p : nat) (g : Character) : stream :=
  Stream (kind d) (content d) (p + 10 + length (bitmap_data g)) false
         (((width g * height g + 7) / 8, length (bitmap_data g))
          :: (2, 2%nat) :: (2, 2%nat) :: (2, 2%nat) :: (2, 2%nat) :: (2, 2%nat)
          :: reads d).

(** The trace entries of [n] index records: 4, 1 and 4 bytes each, all
    returned in full. *)
Fixpoint record_reads (n : nat) : list (Z * nat) :=
  match n with
  | O => []
  | S n' => (4, 4%nat) :: (1, 1%nat) :: (4, 4%nat) :: record_reads n'
  end.

(** The file object right after [file.read(12)]. *)
Definition after_magic (path : bytes) : stream :=
  Stream DiskFile path (length (take 12 path)) false
         [(12, length (take 12 path))].

(** [s] with [in_memory] set to [b]. *)
Definition with_in_memory (b : bool) (s : PF2) : PF2 :=
  mkPF2 (is_pf2 s) (missing_character_code s) b
        (font_name s) (family s) (weight s) (slant s)
        (point_size s) (max_width s) (max_height s) (ascent s) (descent s)
        (character_index s) (data_offset s) (data_io s).

(** What the [read_to_mem] branch of the [DATA] case makes of the
    instance [s] and file [f] the streaming branch would return: the
    rest of the file in a [BytesIO], minus the cursor after reading it
    as the correction, and the file closed. *)
Definition buffered_of (s : PF2) (f : stream) : PF2 * stream :=
  let rest := drop (pos f) (content f) in
  (set_data_offset (- Z.of_nat (pos f + length rest))
     (set_data_io (new_BytesIO rest) (with_in_memory true s)),
   Stream (kind f) (content f) (pos f + length rest) true
          ((-1, length rest) :: reads f)).

(** The same, for the outcome of one pass of the loop. *)
Definition buffered_ctl (c : loop_ctl) : loop_ctl :=
  match c with
  | Continue s f => Continue (with_in_memory true s) f
  | Break s f => let '(s', f') := buffered_of s f in Break s' f'
  end.

(** A trace entry of a [read(n)] that asked for [n >= 0] bytes and got
    fewer. *)
Definition short_read (e : Z * nat) : bool :=
  (0 <=? e.1) && (Z.of_nat e.2 <? e.1).

(** A trace without short reads. *)
Definition all_full (l : list (Z * nat)) : Prop :=
  Forall (λ e, short_read e = false) l.

(** The file object a pass of the loop hands on. *)
Definition ctl_file (c : loop_ctl) : stream :=
  match c with Continue _ f => f | Break _ f => f end.

(** The glyph, or the exception, of a lookup. *)
Definition glyph_of (r : result (Character * PF2)) : result Character :=
  '(g, _) ← r; Ok g.

(** Two file objects over the same bytes, in the same open or closed
    state; and two that also have the cursor at the same byte.  Neither
    looks at the trace. *)
Definition same_source (s t : stream) : Prop :=
  kind s = kind t ∧ content s = content t ∧ closed s = closed t.

Definition same_file (s t : stream) : Prop :=
  same_source s t ∧ pos s = pos t.

(** Two results that raise the same exception or return values related
    by [R]. *)
Definition agree {A B} (R : A → B → Prop) (r : result A) (s : result B) : Prop :=
  match r, s with
  | Ok a, Ok b => R a b
  | Raise e, Raise e' => e = e'
  | Diverge, Diverge => True
  | _, _ => False
  end.

(** The states of an instance that a script can reach from [h] by
    lookups that returned. *)
Inductive after_lookups (h : PF2) : PF2 → Prop :=
  | lookups_none : after_lookups h h
  | lookups_more (h1 : PF2) (cp : Z) (g : Character) (h2 : PF2) :
      after_lookups h h1 → get_char h1 cp = Ok (g, h2) → after_lookups h h2.

(** * Sample files *)

(** A well-formed font: [NAME], [PTSZ], an index of two characters with
    offsets counted from the start of the file (as [get_char] uses them
    in streaming mode), and two glyph records.  The [DATA] payload
    starts at byte 66; '?' is at 66 and 'A' at 78. *)
Definition font_sample : bytes :=
  magic
  ++ tag_NAME ++ [x00; x00; x00; x02] ++ [x48; x69]
  ++ tag_PTSZ ++ [x00; x00; x00; x02] ++ [x00; x10]
  ++ tag_CHIX ++ [x00; x00; x00; x12]
  ++ [x00; x00; x00; x41; x00; x00; x00; x00; x4e]
  ++ [x00; x00; x00; x3f; x00; x00; x00; x00; x42]
  ++ tag_DATA ++ [x00; x00; x00; x18]
  ++ [x00; x08; x00; x02; x00; x00; xff; xff; x00; x09; x7e; x42]
  ++ [x00; x05; x00; x03; x00; x01; x00; x00; x00; x06; xaa; x54].


(** A file cut off inside the bitmap of its only glyph: the header at
    byte 37 announces 8 x 8 pixels, three bitmap bytes follow. *)
Definition font_truncated : bytes :=
  magic
  ++ tag_CHIX ++ [x00; x00; x00; x09]
  ++ [x00; x00; x00; x41; x00; x00; x00; x00; x25]
  ++ tag_DATA ++ [x00; x00; x00; x12]
  ++ [x00; x08; x00; x08; x00; x00; x00; x00; x00; x08; x18; x24; x42].


(** An index whose record for 'A' holds the offset 01 00 00 00. *)
Definition font_16M : bytes :=
  magic
  ++ tag_CHIX ++ [x00; x00; x00; x09]
  ++ [x00; x00; x00; x41; x00; x01; x00; x00; x00]
  ++ tag_DATA ++ [x00; x00; x00; x00].

(** The instance [PF2(path, read_to_mem=..., missing_character='?')]
    when the constructor returns. *)
Definition opened (path : bytes) (read_to_mem : bool) : PF2 :=
  match __init__ path read_to_mem 63 with
  | Ok (self, _) => self
  | _ => new_PF2 false 63 read_to_mem
  end.

(** [PF2(path, ...)[chr(cp)]]: construct, then look up. *)
Definition lookup_in (path : bytes) (read_to_mem : bool) (missing cp : Z)
  : result Character :=
  '(self, _) ← __init__ path read_to_mem missing;
  '(g, _) ← get_char self cp;
  Ok g.

(** The payload of the [DATA] section: the bytes behind the point where
    the streaming scan stops. *)
Definition data_section (path : bytes) : bytes :=
  match __init__ path false 63 with
  | Ok (_, f) => drop (pos f) path
  | _ => []
  end.

(** What a script does that looks a character up, closes the font
    twice and then uses the glyph. *)
Definition lookup_close_close (self : PF2) (cp : Z) : result Character :=
  '(g, self) ← get_char self cp;
  self ← close self;
  _ ← close self;
  Ok g.

(** * Readings of the specification that the code does not follow *)


(** Every lookup is claimed to return [(width * height + 7) // 8]
    bitmap bytes. *)
Definition bitmap_always_complete (self : PF2) (cp : Z) : Prop :=
  ∀ g self', get_char self cp = Ok (g, self') →
    Z.of_nat (length (bitmap_data g)) = (width g * height g + 7) / 8.

(** No call that returns normally is claimed to have made a short
    read on its data source. *)
Definition short_reads_always_raise (self : PF2) (cp : Z) : Prop :=
  ∀ g self' d', get_char self cp = Ok (g, self') →
    data_io self' = Some d' → all_full (reads d').

(** * Further vocabulary

    The rest of the module and what the properties beyond the frozen
    list are stated with. *)

(** Line 131: [__getitem__ = get_char], so [font[char]] is
    [font.get_char(char)]. *)
Definition __getitem__ (self : PF2) (char_point : Z) : result (Character * PF2) :=
  get_char self char_point.

(** What [int32be] returns on a 4-byte field, as a number. *)
Definition int32be_value (b : bytes) : Z :=
  match int32be b with Ok v => v | _ => 0 end.

(** The [n] index records at the front of [bs], in file order: the code
    point and the (compression, offset) pair the loop of lines 74-80
    stores for each. *)
Fixpoint index_records (n : nat) (bs : bytes) : list (Z * (Z * Z)) :=
  match n with
  | O => []
  | S n' =>
      (int32be_value (take 4 bs),
       (default 0 (byte_val <$> bs !! 4%nat), int32be_value (take 4 (drop 5 bs))))
      :: index_records n' (drop 9 bs)
  end.

(** The numbers an index built by the scanner can hold. *)
Definition index_in_range (index : gmap Z (Z * Z)) : Prop :=
  ∀ cp c k, index !! cp = Some (c, k) →
    0 ≤ cp < 2 ^ 40 ∧ 0 ≤ c < 256 ∧ 0 ≤ k < 2 ^ 40.

Definition u16_or_unset (o : option Z) : Prop :=
  ∀ v, o = Some v → 0 ≤ v < 65536.

(** What holds of every instance the constructor builds. *)
Definition instance_in_range (self : PF2) : Prop :=
  (∀ index, character_index self = Some index → index_in_range index)
  ∧ u16_or_unset (point_size self) ∧ u16_or_unset (max_width self)
  ∧ u16_or_unset (max_height self) ∧ u16_or_unset (ascent self)
  ∧ u16_or_unset (descent self).

(** The section names the scanner knows. *)
Definition known_tags : list bytes :=
  [tag_CHIX; tag_DATA; tag_NAME; tag_FAMI; tag_WEIG; tag_SLAN;
   tag_PTSZ; tag_MAXW; tag_MAXH; tag_ASCE; tag_DESC].

(** A section at the cursor of [f]: its name, its length field as the
    scanner decodes it, the payload bytes a [read(L)] returns, and the
    file object behind such a payload. *)
Definition section_name (f : stream) : bytes := take 4 (drop (pos f) (content f)).

Definition section_payload (f : stream) (L : Z) : bytes :=
  take (Z.to_nat L) (drop (pos f + 8) (content f)).

Definition after_section (f : stream) (L : Z) : stream :=
  Stream (kind f) (content f) (pos f + 8 + length (section_payload f L)) false
         ((L, length (section_payload f L)) :: (4, 4%nat) :: (4, 4%nat) :: reads f).

(** The size the scanner asks for at line 91 in a pass that starts at
    the cursor of [f]: the length field as [int32be] decodes it, when
    the eight header bytes are there and the name is neither [CHIX]
    nor [DATA]; those two never reach line 91. *)
Definition payload_request (f : stream) : option Z :=
  if bytes_eqb (section_name f) tag_CHIX || bytes_eqb (section_name f) tag_DATA
  then None
  else match int32be (take 4 (drop (pos f + 4) (content f))) with
       | Ok L => Some L
       | _ => None
       end.

(** The payload requests of a scan that starts at the cursor of [f],
    pass by pass, as far as the loop gets. *)
Fixpoint payload_requests (fuel : nat) (read_to_mem : bool) (self : PF2)
    (f : stream) : list Z :=
  match fuel with
  | O => []
  | S fuel' =>
      let here := match payload_request f with Some L => [L] | None => [] end in
      match scan_step read_to_mem self f with
      | Ok (Continue self' f') =>
          here ++ payload_requests fuel' read_to_mem self' f'
      | _ => here
      end
  end.

(** The entry of the last of the records [recs] (in file order) whose
    code point is [cp], if there is one. *)
Definition last_entry (cp : Z) (recs : list (Z * (Z * Z))) : option (Z * Z) :=
  foldl (λ acc r, if decide (r.1 = cp) then Some r.2 else acc) None recs.

(** * Properties *)

(** Evaluate the constructor on a concrete file and hand the instance
    and the file object to [tac]. *)
Ltac with_instance path rtm miss tac :=
  let r := eval vm_compute in (__init__ path rtm miss) in
  lazymatch r with
  | Ok (?h, ?f) => tac h f
  end.

Ltac by_evaluation := vm_compute; reflexivity.

(** A concrete list of payload requests, each below 2^32. *)
Ltac all_below_2_pow_32 :=
  lazymatch goal with
  | |- Forall _ ?l =>
      let l' := eval vm_compute in l in
      replace l with l' by by_evaluation;
      repeat (apply Forall_cons; split; [reflexivity|]); apply Forall_nil_2
  end.

(** ** Results and bytes *)

Lemma bind_Ok {A B} (m : result A) (f : A → result B) (b : B) :
  m ≫= f = Ok b → ∃ a, m = Ok a ∧ f a = Ok b.
Proof. destruct m as [a| |]; simpl; [eauto | discriminate..]. Qed.

Lemma bytes_eqb_eq (a b : bytes) : bytes_eqb a b = true ↔ a = b.
Proof.
  revert b; induction a as [|x a IH]; intros [|y b]; simpl; try easy.
  rewrite andb_true_iff, IH. split.
  - intros [Hx ->]. by apply Byte.byte_dec_bl in Hx as ->.
  - intros [= -> ->]. split; [by apply Byte.byte_dec_lb | done].
Qed.

Lemma bytes_eqb_refl (a : bytes) : bytes_eqb a a = true.
Proof. by apply bytes_eqb_eq. Qed.

Lemma bytes_eqb_neq (a b : bytes) : a ≠ b → bytes_eqb a b = false.
Proof.
  intros H. destruct (bytes_eqb a b) eqn:E; [|done].
  by apply bytes_eqb_eq in E.
Qed.

Lemma byte_val_range (b : byte) : 0 ≤ byte_val b < 256.
Proof. unfold byte_val. pose proof (Byte.to_N_bounded b). lia. Qed.

Lemma byte_val_zero (b : byte) : byte_val b = 0 → b = x00.
Proof.
  unfold byte_val. intros H.
  assert (Byte.to_N b = Byte.to_N x00) as E by (simpl; lia).
  apply (f_equal Byte.of_N) in E. rewrite !Byte.of_to_N in E. congruence.
Qed.

(** ** Byte codec *)

Lemma uint16be_value (x y : byte) :
  uint16be [x; y] = Ok (byte_val x * 2 ^ 8 + byte_val y).
Proof. unfold uint16be. simpl. by rewrite Z.shiftl_mul_pow2. Qed.

(** The 16-bit decoders compute what their docstrings say. *)
Lemma uint16be_correct (x y : byte) :
  uint16be [x; y] = Ok (be_unsigned [x; y]).
Proof.
  rewrite uint16be_value. reflexivity.
Qed.

Lemma sign_fold (w u : Z) :
  0 < w → 0 ≤ u < 2 ^ w →
  u - Z.shiftl (Z.land (Z.shiftr u (w - 1)) 1) w = twos_complement w u.
Proof.
  intros Hw Hu. unfold twos_complement.
  rewrite Z.testbit_odd.
  assert (0 ≤ Z.shiftr u (w - 1) < 2) as Hs.
  { rewrite Z.shiftr_div_pow2 by lia.
    assert (2 ^ w = 2 * 2 ^ (w - 1)) as E.
    { replace w with (Z.succ (w - 1)) at 1 by lia. apply Z.pow_succ_r. lia. }
    assert (0 < 2 ^ (w - 1)) by (apply Z.pow_pos_nonneg; lia).
    split; [apply Z.div_pos; lia | apply Z.div_lt_upper_bound; lia]. }
  assert (Z.shiftr u (w - 1) = 0 ∨ Z.shiftr u (w - 1) = 1) as [-> | ->] by lia.
  - change (Z.land 0 1) with 0. change (Z.odd 0) with false.
    rewrite Z.shiftl_0_l. lia.
  - change (Z.land 1 1) with 1. change (Z.odd 1) with true.
    rewrite Z.shiftl_mul_pow2 by lia. lia.
Qed.

Lemma int16be_correct (x y : byte) :
  int16be [x; y] = Ok (twos_complement 16 (be_unsigned [x; y])).
Proof.
  unfold int16be. rewrite uint16be_correct. simpl. f_equal.
  apply (sign_fold 16); [lia|].
  unfold be_unsigned. cbn [fold_left].
  pose proof (byte_val_range x). pose proof (byte_val_range y). lia.
Qed.

(** The 32-bit decoder places the first byte at bit 32, not bit 24. *)
Lemma uint32be_value (a b c d : byte) :
  uint32be [a; b; c; d] =
  Ok (byte_val a * 2 ^ 32 + byte_val b * 2 ^ 16 + byte_val c * 2 ^ 8 + byte_val d).
Proof. unfold uint32be. simpl. by rewrite !Z.shiftl_mul_pow2. Qed.

Lemma be_unsigned_4 (a b c d : byte) :
  be_unsigned [a; b; c; d] =
  byte_val a * 2 ^ 24 + byte_val b * 2 ^ 16 + byte_val c * 2 ^ 8 + byte_val d.
Proof. unfold be_unsigned. cbn [fold_left]. lia. Qed.

(** It agrees with the big-endian value exactly when the first byte is 0. *)
Lemma uint32be_correct_iff (a b c d : byte) :
  uint32be [a; b; c; d] = Ok (be_unsigned [a; b; c; d]) ↔ a = x00.
Proof.
  rewrite uint32be_value, be_unsigned_4. split.
  - intros [= H]. apply byte_val_zero. lia.
  - intros ->. f_equal.
Qed.

(** Bit 31 of what [uint32be] returns is never set, so [int32be] never
    subtracts: it returns the same number. *)
Lemma int32be_is_uint32be (a b c d : byte) :
  int32be [a; b; c; d] = uint32be [a; b; c; d].
Proof.
  unfold int32be. rewrite uint32be_value. simpl. f_equal.
  pose proof (byte_val_range a). pose proof (byte_val_range b).
  pose proof (byte_val_range c). pose proof (byte_val_range d).
  set (u := _ + _ + _ + byte_val d).
  replace (Z.shiftr u 31) with (2 * byte_val a).
  2:{ rewrite Z.shiftr_div_pow2 by lia. subst u.
      apply Z.div_unique with
        (r := byte_val b * 2 ^ 16 + byte_val c * 2 ^ 8 + byte_val d); lia. }
  replace (Z.land (2 * byte_val a) 1) with 0.
  2:{ symmetry. change 1 with (Z.ones 1). rewrite Z.land_ones by lia.
      change (2 ^ 1) with 2. rewrite Z.mul_comm. apply Z.mod_mul. lia. }
  rewrite Z.shiftl_0_l. lia.
Qed.

(** C1 (code defect): the first byte of a 4-byte input is shifted by 32
    bits instead of 24, so [uint32be] of 01 00 00 00 is 2^32 where the
    unsigned big-endian value is 2^24, and [int32be] of ff ff ff ff is
    255 * 2^32 + 2^24 - 1 where the two's-complement value is -1.  The
    16-bit decoders are right ([uint16be_correct], [int16be_correct]). *)
Theorem C1_uint32be_shifts_first_byte_by_32 :
  uint32be [x01; x00; x00; x00] = Ok 4294967296
  ∧ be_unsigned [x01; x00; x00; x00] = 16777216
  ∧ int32be [xff; xff; xff; xff] = Ok 1095233437695
  ∧ twos_complement 32 (be_unsigned [xff; xff; xff; xff]) = -1.
Proof. repeat split; vm_compute; reflexivity. Qed.

(** ** Decoders on short and long inputs *)

Lemma getitem_not_Diverge (b : bytes) (i : nat) : getitem b i ≠ Diverge.
Proof. unfold getitem. by destruct (b !! i). Qed.

Lemma uint16be_Ok (b : bytes) (v : Z) :
  uint16be b = Ok v → ∃ x y r, b = x :: y :: r ∧ v = byte_val x * 2 ^ 8 + byte_val y.
Proof.
  destruct b as [|x [|y r]]; [discriminate..|].
  intros H. exists x, y, r. split; [done|].
  unfold uint16be in H. simpl in H. injection H as <-.
  by rewrite Z.shiftl_mul_pow2.
Qed.

Lemma int16be_Ok (b : bytes) (v : Z) :
  int16be b = Ok v → ∃ x y r, b = x :: y :: r.
Proof.
  unfold int16be. intros H. apply bind_Ok in H as (u & Hu & _).
  apply uint16be_Ok in Hu as (x & y & r & -> & _). eauto.
Qed.

Lemma uint16be_short (b : bytes) : (length b < 2)%nat → uint16be b = Raise IndexError.
Proof. destruct b as [|x [|y r]]; simpl; [done..|lia]. Qed.

Lemma int16be_short (b : bytes) : (length b < 2)%nat → int16be b = Raise IndexError.
Proof. intros H. unfold int16be. by rewrite uint16be_short. Qed.

Lemma uint16be_is_ok (b : bytes) : (2 ≤ length b)%nat → ∃ v, uint16be b = Ok v.
Proof. destruct b as [|x [|y r]]; simpl; [lia..|]. intros _. eexists. reflexivity. Qed.

Lemma int16be_is_ok (b : bytes) : (2 ≤ length b)%nat → ∃ v, int16be b = Ok v.
Proof.
  intros H. destruct (uint16be_is_ok b H) as [u Hu].
  unfold int16be. rewrite Hu. eexists. reflexivity.
Qed.

Lemma uint32be_Ok (b : bytes) (v : Z) :
  uint32be b = Ok v → ∃ x y z w r, b = x :: y :: z :: w :: r.
Proof.
  destruct b as [|x [|y [|z [|w r]]]]; [discriminate..|]. intros _. by eauto 6.
Qed.

Lemma int32be_Ok (b : bytes) (v : Z) :
  int32be b = Ok v → (4 ≤ length b)%nat.
Proof.
  unfold int32be. intros H. apply bind_Ok in H as (u & Hu & _).
  apply uint32be_Ok in Hu as (x & y & z & w & r & ->). simpl. lia.
Qed.

Lemma int32be_short (b : bytes) : (length b < 4)%nat → int32be b = Raise IndexError.
Proof. destruct b as [|x [|y [|z [|w r]]]]; simpl; [done..|lia]. Qed.


Lemma int32be_nonneg (b : bytes) (v : Z) : int32be b = Ok v → 0 ≤ v.
Proof.
  intros H. pose proof H as H'. unfold int32be in H'.
  apply bind_Ok in H' as (u & Hu & _).
  apply uint32be_Ok in Hu as (x & y & z & w & r & ->).
  change (int32be (x :: y :: z :: w :: r)) with (int32be [x; y; z; w]) in H.
  rewrite int32be_is_uint32be, uint32be_value in H. injection H as <-.
  pose proof (byte_val_range x). pose proof (byte_val_range y).
  pose proof (byte_val_range z). pose proof (byte_val_range w). lia.
Qed.

Lemma uint16be_not_Diverge (b : bytes) : uint16be b ≠ Diverge.
Proof. by destruct b as [|x [|y r]]. Qed.

Lemma int16be_not_Diverge (b : bytes) : int16be b ≠ Diverge.
Proof. by destruct b as [|x [|y r]]. Qed.

Lemma int32be_not_Diverge (b : bytes) : int32be b ≠ Diverge.
Proof. by destruct b as [|x [|y [|z [|w r]]]]. Qed.

(** ** File objects *)

Lemma read_Ok (n : Z) (f : stream) (b : bytes) (f' : stream) :
  read n f = Ok (b, f') →
  closed f = false
  ∧ b = (if n <? 0 then drop (pos f) (content f)
         else take (Z.to_nat n) (drop (pos f) (content f)))
  ∧ f' = Stream (kind f) (content f) (pos f + length b)%nat false
                ((n, length b) :: reads f).
Proof.
  unfold read. destruct (closed f) eqn:Hc; [discriminate|].
  intros [= <- <-]. done.
Qed.

Lemma read_not_Diverge (n : Z) (f : stream) : read n f ≠ Diverge.
Proof. unfold read. by destruct (closed f). Qed.

Lemma read_full (n : nat) (f : stream) :
  closed f = false → (pos f + n ≤ length (content f))%nat →
  read (Z.of_nat n) f =
  Ok (take n (drop (pos f) (content f)),
      Stream (kind f) (content f) (pos f + n)%nat false
             ((Z.of_nat n, n) :: reads f)).
Proof.
  intros Hc Hn. unfold read. rewrite Hc.
  destruct (Z.of_nat n <? 0) eqn:E; [lia|].
  rewrite Nat2Z.id, length_take, length_drop.
  by replace (n `min` (length (content f) - pos f))%nat with n by lia.
Qed.

(** What a [read] leaves unchanged, and how far it moves the cursor. *)
Lemma read_frame (n : Z) (f : stream) (b : bytes) (f' : stream) :
  read n f = Ok (b, f') →
  kind f' = kind f ∧ content f' = content f ∧ closed f' = false
  ∧ pos f' = (pos f + length b)%nat
  ∧ (length b ≤ remaining f)%nat
  ∧ remaining f' = (remaining f - length b)%nat.
Proof.
  intros H. apply read_Ok in H as (Hc & Hb & ->). simpl.
  assert (length b ≤ remaining f)%nat as Hle.
  { unfold remaining. rewrite Hb.
    destruct (n <? 0); rewrite ?length_take, length_drop; lia. }
  unfold remaining in *. simpl. repeat split; try done. lia.
Qed.

(** A read that returned at least the [n] bytes asked for found them
    all in the file. *)
Lemma read_enough (n : nat) (f : stream) (b : bytes) (f' : stream) :
  read (Z.of_nat n) f = Ok (b, f') → (0 < n ≤ length b)%nat →
  b = take n (drop (pos f) (content f)) ∧ length b = n
  ∧ (pos f + n ≤ length (content f))%nat.
Proof.
  intros H [Hpos Hn]. pose proof (read_frame _ _ _ _ H) as (_ & _ & _ & _ & Hle & _).
  apply read_Ok in H as (_ & Hb & _).
  destruct (Z.of_nat n <? 0) eqn:E; [lia|]. rewrite Nat2Z.id in Hb.
  assert (length b = n) as Hl.
  { apply Nat.le_antisymm; [|done]. rewrite Hb, length_take. lia. }
  unfold remaining in Hle. repeat split; [done..|lia].
Qed.

(** From here on the file operations and the decoders are only opened
    through their lemmas. *)
#[global] Arguments read : simpl never.
#[global] Arguments seek : simpl never.
#[global] Arguments uint16be : simpl never.
#[global] Arguments int16be : simpl never.
#[global] Arguments int32be : simpl never.

(** ** [get_char]: what a returning call has done *)

Lemma read2 (f : stream) (b : bytes) (f' : stream) :
  read 2 f = Ok (b, f') → (2 ≤ length b)%nat →
  b = take 2 (drop (pos f) (content f))
  ∧ (pos f + 2 ≤ length (content f))%nat
  ∧ f' = Stream (kind f) (content f) (pos f + 2) false ((2, 2%nat) :: reads f).
Proof.
  intros H Hl. change 2 with (Z.of_nat 2) in H.
  pose proof (read_enough 2 f b f' H) as (Hb & Hlen & Hp); [lia|].
  apply read_Ok in H as (_ & _ & ->). rewrite Hlen. done.
Qed.

Lemma uint16be_length (b : bytes) (v : Z) : uint16be b = Ok v → (2 ≤ length b)%nat.
Proof. intros H. apply uint16be_Ok in H as (x & y & r & -> & _). simpl. lia. Qed.

Lemma int16be_length (b : bytes) (v : Z) : int16be b = Ok v → (2 ≤ length b)%nat.
Proof. intros H. apply int16be_Ok in H as (x & y & r & ->). simpl. lia. Qed.

Lemma uint16be_nonneg (b : bytes) (v : Z) : uint16be b = Ok v → 0 ≤ v < 65536.
Proof.
  intros H. apply uint16be_Ok in H as (x & y & r & -> & ->).
  pose proof (byte_val_range x). pose proof (byte_val_range y). lia.
Qed.

Lemma seek_Ok (n : Z) (f f' : stream) :
  seek n f = Ok f' →
  closed f = false ∧ 0 ≤ n
  ∧ f' = Stream (kind f) (content f) (Z.to_nat n) false (reads f).
Proof.
  unfold seek. destruct (closed f) eqn:Hc; [discriminate|].
  destruct (n <? 0) eqn:E; [discriminate|]. intros [= <-].
  split; [done|]. split; [lia|done].
Qed.

Lemma attr_Ok {A} (o : option A) (a : A) : attr o = Ok a → o = Some a.
Proof. destruct o; [intros [= ->]; done | discriminate]. Qed.

Lemma get_char_Ok (self : PF2) (cp : Z) (g : Character) (self' : PF2) :
  get_char self cp = Ok (g, self') →
  ∃ index c k d corr,
    character_index self = Some index
    ∧ entry_for index (missing_character_code self) cp = Some (c, k)
    ∧ data_io self = Some d ∧ data_offset self = Some corr
    ∧ closed d = false ∧ 0 ≤ k + corr
    ∧ (Z.to_nat (k + corr) + 10 ≤ length (content d))%nat
    ∧ decoded_at (content d) (Z.to_nat (k + corr)) g
    ∧ self' = set_data_io (after_lookup d (Z.to_nat (k + corr)) g) self.
Proof.
  unfold get_char. intros H.
  apply bind_Ok in H as (index & Hidx%attr_Ok & H).
  apply bind_Ok in H as ([c k] & Hinfo & H).
  apply bind_Ok in H as (d & Hd%attr_Ok & H).
  apply bind_Ok in H as (corr & Hcorr%attr_Ok & H).
  apply bind_Ok in H as (d0 & (Hcl & Hk & ->)%seek_Ok & H).
  apply bind_Ok in H as ([b1 d1] & Hr1 & H).
  apply bind_Ok in H as (w & Hw & H).
  apply read2 in Hr1 as (-> & Hp1 & ->); [|by eapply uint16be_length].
  apply bind_Ok in H as ([b2 d2] & Hr2 & H).
  apply bind_Ok in H as (h & Hh & H).
  apply read2 in Hr2 as (-> & Hp2 & ->); [|by eapply uint16be_length].
  apply bind_Ok in H as ([b3 d3] & Hr3 & H).
  apply bind_Ok in H as (xo & Hxo & H).
  apply read2 in Hr3 as (-> & Hp3 & ->); [|by eapply int16be_length].
  apply bind_Ok in H as ([b4 d4] & Hr4 & H).
  apply bind_Ok in H as (yo & Hyo & H).
  apply read2 in Hr4 as (-> & Hp4 & ->); [|by eapply int16be_length].
  apply bind_Ok in H as ([b5 d5] & Hr5 & H).
  apply bind_Ok in H as (dw & Hdw & H).
  apply read2 in Hr5 as (-> & Hp5 & ->); [|by eapply int16be_length].
  apply bind_Ok in H as ([bm d6] & Hr6 & H).
  injection H as <- <-.
  apply read_Ok in Hr6 as (_ & Hbm & ->).
  simpl in *.
  pose proof (uint16be_nonneg _ _ Hw). pose proof (uint16be_nonneg _ _ Hh).
  destruct ((w * h + 7) `div` 8 <? 0) eqn:E.
  { apply Z.ltb_lt in E. assert (0 ≤ (w * h + 7) `div` 8) by (apply Z.div_pos; nia). lia. }
  set (p := Z.to_nat (k + corr)) in *.
  replace (p + 2 + 2)%nat with (p + 4)%nat in * by lia.
  replace (p + 4 + 2)%nat with (p + 6)%nat in * by lia.
  replace (p + 6 + 2)%nat with (p + 8)%nat in * by lia.
  replace (p + 8 + 2)%nat with (p + 10)%nat in * by lia.
  exists index, c, k, d, corr. repeat split; try done.
  unfold entry_for. destruct (index !! cp) as [e|]; [by injection Hinfo as -> |].
  destruct (index !! missing_character_code self); [by injection Hinfo as -> | done].
Qed.

(** ** [get_char]: when a call returns *)

Lemma read2_bind {B} (f : stream) (k : bytes * stream → result B) :
  closed f = false → (pos f + 2 ≤ length (content f))%nat →
  read 2 f ≫= k =
  k (take 2 (drop (pos f) (content f)),
     Stream (kind f) (content f) (pos f + 2) false ((2, 2%nat) :: reads f)).
Proof.
  intros Hc Hp. change 2 with (Z.of_nat 2). by rewrite read_full.
Qed.

Lemma length_take2 (c : bytes) (p : nat) :
  (p + 2 ≤ length c)%nat → (2 ≤ length (take 2 (drop p c)))%nat.
Proof. intros H. rewrite length_take, length_drop. lia. Qed.

Lemma get_char_returns (self : PF2) (cp : Z) index c k d corr :
  character_index self = Some index →
  entry_for index (missing_character_code self) cp = Some (c, k) →
  data_io self = Some d → data_offset self = Some corr →
  closed d = false → 0 ≤ k + corr →
  (Z.to_nat (k + corr) + 10 ≤ length (content d))%nat →
  ∃ g, get_char self cp = Ok (g, set_data_io (after_lookup d (Z.to_nat (k + corr)) g) self)
       ∧ decoded_at (content d) (Z.to_nat (k + corr)) g.
Proof.
  intros Hidx He Hd Hcorr Hcl Hk Hlen.
  assert (is_ok (get_char self cp) = true) as Hok.
  { unfold get_char. rewrite Hidx. simpl.
    assert ((match index !! cp with
             | Some info => Ok info
             | None => match index !! missing_character_code self with
                       | Some info => Ok info
                       | None => Raise KeyError
                       end
             end) = Ok (c, k)) as ->.
    { unfold entry_for in He. destruct (index !! cp); [by injection He as ->|].
      by rewrite He. }
    simpl. rewrite Hd, Hcorr. simpl. unfold seek. rewrite Hcl.
    destruct (k + corr <? 0) eqn:E; [lia|]. cbn [mbind result_bind].
    set (p := Z.to_nat (k + corr)) in *.
    rewrite read2_bind by (simpl; lia). cbn.
    destruct (uint16be_is_ok (take 2 (drop p (content d)))) as [w ->];
      [apply length_take2; lia|]. cbn.
    rewrite read2_bind by (simpl; lia). cbn.
    destruct (uint16be_is_ok (take 2 (drop (p + 2) (content d)))) as [h ->];
      [apply length_take2; lia|]. cbn.
    rewrite read2_bind by (simpl; lia). cbn.
    destruct (int16be_is_ok (take 2 (drop (p + 2 + 2) (content d)))) as [xo ->];
      [apply length_take2; lia|]. cbn.
    rewrite read2_bind by (simpl; lia). cbn.
    destruct (int16be_is_ok (take 2 (drop (p + 2 + 2 + 2) (content d)))) as [yo ->];
      [apply length_take2; lia|]. cbn.
    rewrite read2_bind by (simpl; lia). cbn.
    destruct (int16be_is_ok (take 2 (drop (p + 2 + 2 + 2 + 2) (content d)))) as [dw ->];
      [apply length_take2; lia|]. cbn.
    unfold read. reflexivity. }
  destruct (get_char self cp) as [[g self']| |] eqn:Hr; [|discriminate..].
  pose proof (get_char_Ok _ _ _ _ Hr)
    as (index' & c' & k' & d' & corr' & Hi' & He' & Hd' & Hc' & _ & _ & _ & Hdec & ->).
  assert (index' = index) as -> by congruence.
  assert (d' = d) as -> by congruence.
  assert (corr' = corr) as -> by congruence.
  assert (k' = k) as -> by congruence.
  eauto.
Qed.

(** ** The section scanner *)

Lemma record_reads_snoc (n : nat) (l : list (Z * nat)) :
  record_reads n ++ (4, 4%nat) :: (1, 1%nat) :: (4, 4%nat) :: l
  = record_reads (S n) ++ l.
Proof.
  induction n as [|n IH]; [done|].
  change (record_reads (S n)) with ((4, 4%nat) :: (1, 1%nat) :: (4, 4%nat) :: record_reads n).
  simpl app at 1. rewrite IH. reflexivity.
Qed.

Lemma getitem0_Ok (b : bytes) (v : Z) : getitem b 0 = Ok v → (1 ≤ length b)%nat.
Proof. destruct b; [discriminate|]. simpl. lia. Qed.

Lemma read_sized (n : nat) (f : stream) (b : bytes) (f' : stream) :
  read (Z.of_nat n) f = Ok (b, f') → (0 < n ≤ length b)%nat →
  b = take n (drop (pos f) (content f))
  ∧ (pos f + n ≤ length (content f))%nat
  ∧ f' = Stream (kind f) (content f) (pos f + n) false ((Z.of_nat n, n) :: reads f).
Proof.
  intros H Hl.
  pose proof (read_enough n f b f' H Hl) as (Hb & Hlen & Hp).
  apply read_Ok in H as (_ & _ & ->). rewrite Hlen. done.
Qed.

(** A returning run of the index loop has read [n] whole records: nine
    bytes each, and nothing else. *)
Lemma read_index_frame (n : nat) idx f idx' f' :
  read_index n idx f = Ok (idx', f') →
  (n = 0%nat ∨ closed f = false ∧ (pos f + 9 * n ≤ length (content f))%nat)
  ∧ f' = Stream (kind f) (content f) (pos f + 9 * n) (closed f)
                (record_reads n ++ reads f).
Proof.
  revert idx f idx' f'. induction n as [|n IH]; intros idx f idx' f' H.
  - injection H as <- <-. destruct f. cbn [pos content kind closed reads].
    split; [by left|]. by rewrite Nat.add_0_r.
  - cbn [read_index] in H.
    apply bind_Ok in H as ([b1 f1] & Hr1 & H). cbn beta iota in H.
    apply bind_Ok in H as (cp & Hcp & H).
    apply bind_Ok in H as ([b2 f2] & Hr2 & H). cbn beta iota in H.
    apply bind_Ok in H as (cm & Hcm & H).
    apply bind_Ok in H as ([b3 f3] & Hr3 & H). cbn beta iota in H.
    apply bind_Ok in H as (off & Hoff & H).
    pose proof (read_Ok _ _ _ _ Hr1) as (Hcl & _).
    apply (read_sized 4) in Hr1 as (_ & Hp1 & ->);
      [|apply int32be_Ok in Hcp; lia].
    apply (read_sized 1) in Hr2 as (_ & Hp2 & ->);
      [|apply getitem0_Ok in Hcm; lia].
    apply (read_sized 4) in Hr3 as (_ & Hp3 & ->);
      [|apply int32be_Ok in Hoff; lia].
    apply IH in H as (Hn & ->). cbn [pos content kind closed reads] in *.
    split; [right; split; [done|]; destruct Hn as [->|[_ Hn]]; lia|].
    rewrite Hcl. f_equal; [lia|].
    change (Z.of_nat 4) with 4. change (Z.of_nat 1) with 1.
    by rewrite record_reads_snoc.
Qed.

Lemma read_index_not_Diverge (n : nat) idx f : read_index n idx f ≠ Diverge.
Proof.
  revert idx f. induction n as [|n IH]; intros idx f; [done|].
  cbn [read_index].
  destruct (read 4 f) as [[b1 f1]| |] eqn:E1; [|done|by apply read_not_Diverge in E1].
  cbn. destruct (int32be b1) as [cp| |] eqn:E2; [|done|by apply int32be_not_Diverge in E2].
  cbn. destruct (read 1 f1) as [[b2 f2]| |] eqn:E3; [|done|by apply read_not_Diverge in E3].
  cbn. destruct (getitem b2 0) as [cm| |] eqn:E4; [|done|by apply getitem_not_Diverge in E4].
  cbn. destruct (read 4 f2) as [[b3 f3]| |] eqn:E5; [|done|by apply read_not_Diverge in E5].
  cbn. destruct (int32be b3) as [off| |] eqn:E6; [|done|by apply int32be_not_Diverge in E6].
  cbn. apply IH.
Qed.

(** [set_metadata] only touches the nine metadata attributes. *)
Lemma set_metadata_frame (name data : bytes) (self self' : PF2) :
  set_metadata name data self = Ok self' →
  is_pf2 self' = is_pf2 self
  ∧ missing_character_code self' = missing_character_code self
  ∧ in_memory self' = in_memory self
  ∧ character_index self' = character_index self
  ∧ data_offset self' = data_offset self
  ∧ data_io self' = data_io self.
Proof.
  unfold set_metadata. intros H.
  repeat (destruct (bytes_eqb name _));
    try (apply bind_Ok in H as (v & _ & H)); by injection H as <-.
Qed.

Lemma set_metadata_not_Diverge (name data : bytes) (self : PF2) :
  set_metadata name data self ≠ Diverge.
Proof.
  unfold set_metadata.
  repeat (destruct (bytes_eqb name _)); try done;
    by destruct (uint16be data) eqn:E; [| |apply uint16be_not_Diverge in E].
Qed.

#[global] Arguments read_index : simpl never.
#[global] Arguments set_metadata : simpl never.
#[global] Arguments dispatch : simpl never.

(** A pass that does not raise has read a whole 8-byte section header. *)
Lemma scan_step_Ok (rtm : bool) (self : PF2) (f : stream) (c : loop_ctl) :
  scan_step rtm self f = Ok c →
  closed f = false ∧ (pos f + 8 ≤ length (content f))%nat
  ∧ ∃ L, int32be (take 4 (drop (pos f + 4) (content f))) = Ok L
         ∧ dispatch rtm self (take 4 (drop (pos f) (content f))) L
             (Stream (kind f) (content f) (pos f + 8) false
                     ((4, 4%nat) :: (4, 4%nat) :: reads f)) = Ok c.
Proof.
  unfold scan_step. intros H.
  apply bind_Ok in H as ([name f1] & Hr1 & H). cbn beta iota in H.
  apply bind_Ok in H as ([b f2] & Hr2 & H). cbn beta iota in H.
  apply bind_Ok in H as (L & HL & H).
  pose proof (read_frame _ _ _ _ Hr1) as (Hk1 & Hc1 & _ & Hp1 & Hle1 & _).
  pose proof (read_Ok _ _ _ _ Hr1) as (Hcl & Hname & Hf1).
  change (4 <? 0) with false in Hname. cbn iota in Hname.
  change (Z.to_nat 4) with 4%nat in Hname.
  apply (read_sized 4) in Hr2 as (Hb & Hp2 & ->); [|apply int32be_Ok in HL; lia].
  assert (length name = 4%nat) as Hlen.
  { rewrite Hname, length_take, length_drop. rewrite Hc1, Hp1 in Hp2.
    rewrite Hname, length_take, length_drop in Hp2. lia. }
  clear Hk1 Hc1 Hp1 Hr1. subst f1.
  cbn [pos content kind closed reads] in *. rewrite Hlen in *.
  change (Z.of_nat 4) with 4 in H.
  split; [done|]. split; [lia|]. exists L. split; [by rewrite <- Hb|].
  rewrite <- Hname. replace (pos f + 8)%nat with (pos f + 4 + 4)%nat by lia.
  exact H.
Qed.

Lemma dispatch_not_Diverge rtm self name L f : dispatch rtm self name L f ≠ Diverge.
Proof.
  unfold dispatch. destruct (bytes_eqb name tag_CHIX).
  { destruct (read_index _ _ _) as [[idx f3]| |] eqn:E; [done..|].
    by apply read_index_not_Diverge in E. }
  destruct (bytes_eqb name tag_DATA).
  { destruct rtm; [|done]. unfold read, tell. by destruct (closed f) eqn:E. }
  destruct (read L f) as [[data f3]| |] eqn:E; [|done|by apply read_not_Diverge in E].
  cbn. destruct (set_metadata name data self) eqn:E'; [done..|].
  by apply set_metadata_not_Diverge in E'.
Qed.

Lemma scan_step_not_Diverge rtm self f : scan_step rtm self f ≠ Diverge.
Proof.
  unfold scan_step.
  destruct (read 4 f) as [[name f1]| |] eqn:E1; [|done|by apply read_not_Diverge in E1].
  cbn. destruct (read 4 f1) as [[b f2]| |] eqn:E2; [|done|by apply read_not_Diverge in E2].
  cbn. destruct (int32be b) as [L| |] eqn:E3; [|done|by apply int32be_not_Diverge in E3].
  cbn. apply dispatch_not_Diverge.
Qed.

(** What a pass that continues leaves unchanged. *)
Lemma dispatch_Continue rtm self name L f self' f' :
  dispatch rtm self name L f = Ok (Continue self' f') →
  is_pf2 self' = is_pf2 self
  ∧ missing_character_code self' = missing_character_code self
  ∧ in_memory self' = in_memory self
  ∧ data_offset self' = data_offset self
  ∧ data_io self' = data_io self
  ∧ kind f' = kind f ∧ content f' = content f ∧ closed f' = closed f
  ∧ (pos f ≤ pos f')%nat.
Proof.
  unfold dispatch. destruct (bytes_eqb name tag_CHIX).
  { intros H. apply bind_Ok in H as ([idx f3] & Hri & H). injection H as <- <-.
    apply read_index_frame in Hri as (_ & ->).
    cbn [pos content kind closed reads]. repeat split; try done. lia. }
  destruct (bytes_eqb name tag_DATA).
  { destruct rtm; [|discriminate]. intros H.
    apply bind_Ok in H as ([rest f3] & _ & H). cbn beta iota in H.
    apply bind_Ok in H as (p & _ & H). discriminate. }
  intros H. apply bind_Ok in H as ([data f3] & Hr & H). cbn beta iota in H.
  apply bind_Ok in H as (s & Hs & H). injection H as <- <-.
  apply set_metadata_frame in Hs as (? & ? & ? & ? & ? & ?).
  pose proof (read_Ok _ _ _ _ Hr) as (Hcl & _).
  apply read_frame in Hr as (? & ? & ? & ? & ? & ?).
  repeat split; try done; [congruence | lia].
Qed.

Lemma scan_step_progress rtm self f self' f' :
  scan_step rtm self f = Ok (Continue self' f') →
  content f' = content f ∧ (remaining f' < remaining f)%nat.
Proof.
  intros H. apply scan_step_Ok in H as (Hcl & Hp & L & _ & H).
  apply dispatch_Continue in H as (_ & _ & _ & _ & _ & _ & Hc & _ & Hpos).
  cbn [pos content kind closed reads] in *.
  split; [done|]. unfold remaining. rewrite Hc. lia.
Qed.

(** The loop ends within the fuel [__init__] gives it: it returns or it
    raises. *)
Lemma scan_terminates (fuel : nat) rtm self f :
  (remaining f < fuel)%nat → scan fuel rtm self f ≠ Diverge.
Proof.
  revert self f. induction fuel as [|fuel IH]; intros self f Hf; [lia|].
  cbn [scan].
  destruct (scan_step rtm self f) as [[s1 f1|s1 f1]| |] eqn:E; cbn; [|done..|].
  - apply scan_step_progress in E as (_ & Hlt). apply IH. lia.
  - by apply scan_step_not_Diverge in E.
Qed.

#[global] Arguments scan_step : simpl never.
#[global] Arguments scan : simpl never.

Lemma init_not_Diverge (path : bytes) rtm miss : __init__ path rtm miss ≠ Diverge.
Proof.
  unfold __init__.
  destruct (read 12 (open_rb path)) as [[b f]| |] eqn:E; [|done|by apply read_not_Diverge in E].
  cbn beta iota zeta delta [mbind result_bind is_pf2 negb].
  destruct (bytes_eqb b magic); cbn beta iota zeta delta [is_pf2 negb]; [|done].
  apply scan_terminates. apply read_frame in E as (_ & Hc & _).
  unfold remaining. rewrite Hc. cbn. lia.
Qed.

(** ** [__init__]: the two ways it returns *)

Lemma scan_S (fuel : nat) rtm self f :
  scan (S fuel) rtm self f =
  scan_step rtm self f ≫= λ c,
    match c with
    | Continue self file => scan fuel rtm self file
    | Break self file => Ok (self, file)
    end.
Proof. reflexivity. Qed.

Lemma init_unfold (path : bytes) rtm miss :
  __init__ path rtm miss =
  if bytes_eqb (take 12 path) magic
  then scan (S (length path)) rtm (new_PF2 true miss rtm) (after_magic path)
  else Ok (new_PF2 false miss rtm, after_magic path).
Proof.
  unfold __init__, read, open_rb, after_magic.
  cbn beta iota zeta delta [mbind result_bind closed pos content kind reads Z.ltb Z.compare].
  change (Z.to_nat 12) with 12%nat. change (drop 0 path) with path.
  by destruct (bytes_eqb (take 12 path) magic).
Qed.

Lemma init_bad_magic (path : bytes) rtm miss :
  take 12 path ≠ magic →
  __init__ path rtm miss = Ok (new_PF2 false miss rtm, after_magic path).
Proof. intros H. rewrite init_unfold. by rewrite bytes_eqb_neq. Qed.

Lemma init_good_magic (path : bytes) rtm miss h f :
  __init__ path rtm miss = Ok (h, f) → is_pf2 h = true →
  take 12 path = magic
  ∧ scan (S (length path)) rtm (new_PF2 true miss rtm)
         (Stream DiskFile path 12 false [(12, 12%nat)]) = Ok (h, f).
Proof.
  rewrite init_unfold. destruct (bytes_eqb (take 12 path) magic) eqn:E.
  - apply bytes_eqb_eq in E. intros H _. split; [done|].
    unfold after_magic in H. by rewrite E in H.
  - intros [= <- <-]. discriminate.
Qed.

Lemma dispatch_Break_streaming self name L f s' f' :
  dispatch false self name L f = Ok (Break s' f') →
  name = tag_DATA ∧ f' = f ∧ s' = set_data_offset 0 (set_data_io f self).
Proof.
  unfold dispatch. destruct (bytes_eqb name tag_CHIX).
  { intros H. apply bind_Ok in H as ([idx f3] & _ & H). discriminate. }
  destruct (bytes_eqb name tag_DATA) eqn:E.
  { apply bytes_eqb_eq in E. by intros [= <- <-]. }
  intros H. apply bind_Ok in H as ([data f3] & _ & H). cbn beta iota in H.
  apply bind_Ok in H as (s & _ & H). discriminate.
Qed.

(** A streaming scan that returns: [data_io] is the file object itself,
    left just behind the header of the [DATA] section, and the
    correction is 0. *)
Lemma scan_streaming (fuel : nat) self f h f' :
  scan fuel false self f = Ok (h, f') →
  data_io h = Some f' ∧ data_offset h = Some 0
  ∧ kind f' = kind f ∧ content f' = content f ∧ closed f' = false
  ∧ is_pf2 h = is_pf2 self
  ∧ missing_character_code h = missing_character_code self
  ∧ in_memory h = in_memory self
  ∧ (pos f + 8 ≤ pos f' ≤ length (content f))%nat
  ∧ take 4 (drop (pos f' - 8) (content f)) = tag_DATA.
Proof.
  revert self f. induction fuel as [|fuel IH]; intros self f H; [discriminate|].
  rewrite scan_S in H. apply bind_Ok in H as (c & Hstep & H).
  pose proof (scan_step_Ok _ _ _ _ Hstep) as (Hcl & Hp & L & HL & Hd).
  destruct c as [s1 f1|s1 f1].
  - apply dispatch_Continue in Hd as (E1 & E2 & E3 & _ & _ & Hk & Hc & _ & Hpos).
    cbn [pos content kind closed reads] in *.
    apply IH in H as (? & ? & ? & ? & ? & ? & ? & ? & ? & ?).
    rewrite Hc in *. repeat split; try congruence; try lia.
  - injection H as <- <-.
    apply dispatch_Break_streaming in Hd as (Hname & -> & ->).
    cbn [pos content kind closed reads]. repeat split; try done; try lia.
    by replace (pos f + 8 - 8)%nat with (pos f) by lia.
Qed.

(** ** Buffered mode as a function of streaming mode

    The scan does the same reads in both modes until the [DATA] tag.
    There the buffered constructor reads the rest of the file into a
    [BytesIO], takes [-file.tell()] as it stands *after* that read, and
    closes the file. *)

Lemma set_metadata_modes name data self :
  set_metadata name data (with_in_memory true self) =
  set_metadata name data self ≫= λ s, Ok (with_in_memory true s).
Proof.
  unfold set_metadata.
  repeat (destruct (bytes_eqb name _)); try reflexivity;
    by destruct (uint16be data).
Qed.

Lemma dispatch_modes self name L f :
  closed f = false →
  dispatch true (with_in_memory true self) name L f =
  dispatch false self name L f ≫= λ c, Ok (buffered_ctl c).
Proof.
  intros Hcl. unfold dispatch. destruct (bytes_eqb name tag_CHIX).
  { by destruct (read_index _ _ _) as [[idx f3]| |]. }
  destruct (bytes_eqb name tag_DATA).
  { unfold read, tell. rewrite Hcl. reflexivity. }
  destruct (read L f) as [[data f3]| |]; [|done..].
  cbn beta iota delta [mbind result_bind]. rewrite set_metadata_modes.
  by destruct (set_metadata name data self).
Qed.

Lemma scan_step_modes self f :
  scan_step true (with_in_memory true self) f =
  scan_step false self f ≫= λ c, Ok (buffered_ctl c).
Proof.
  unfold scan_step.
  destruct (read 4 f) as [[name f1]| |]; [|done..].
  cbn beta iota delta [mbind result_bind].
  destruct (read 4 f1) as [[b f2]| |] eqn:E; [|done..].
  cbn beta iota delta [mbind result_bind].
  destruct (int32be b) as [L| |]; [|done..].
  cbn beta iota delta [mbind result_bind].
  apply dispatch_modes. by apply read_frame in E as (_ & _ & ? & _).
Qed.

Lemma scan_modes (fuel : nat) self f :
  scan fuel true (with_in_memory true self) f =
  scan fuel false self f ≫= λ '(s, f'), Ok (buffered_of s f').
Proof.
  revert self f. induction fuel as [|fuel IH]; intros self f; [done|].
  rewrite !scan_S, scan_step_modes.
  destruct (scan_step false self f) as [[s1 f1|s1 f1]| |]; [..|done|done].
  - cbn beta iota delta [mbind result_bind buffered_ctl]. apply IH.
  - cbn beta iota delta [mbind result_bind buffered_ctl].
    by destruct (buffered_of s1 f1).
Qed.

(** The buffered constructor in terms of the streaming one. *)
Lemma init_modes (path : bytes) miss :
  __init__ path true miss =
  __init__ path false miss ≫= λ '(s, f),
    if is_pf2 s then Ok (buffered_of s f) else Ok (with_in_memory true s, f).
Proof.
  rewrite !init_unfold. destruct (bytes_eqb (take 12 path) magic); [|done].
  change (new_PF2 true miss true) with (with_in_memory true (new_PF2 true miss false)).
  rewrite scan_modes.
  destruct (scan _ false _ _) as [[s f]| |] eqn:E; [|done..].
  apply scan_streaming in E as (_ & _ & _ & _ & _ & E & _).
  cbn beta iota delta [mbind result_bind]. by rewrite E.
Qed.

(** ** Short reads during the scan *)

Lemma record_reads_full (n : nat) : all_full (record_reads n).
Proof. induction n; repeat constructor. done. Qed.

Lemma read_short_eof (n : Z) f b f' :
  read n f = Ok (b, f') → short_read (n, length b) = true → remaining f' = 0%nat.
Proof.
  intros H Hs. pose proof (read_frame _ _ _ _ H) as (_ & _ & _ & _ & _ & Hrem).
  apply read_Ok in H as (_ & Hb & _).
  unfold short_read in Hs. cbn [fst snd] in Hs.
  apply andb_true_iff in Hs as [H0 Hlt].
  destruct (n <? 0) eqn:E; [lia|].
  assert (length b = (Z.to_nat n `min` remaining f)%nat) as Hl.
  { rewrite Hb at 1. by rewrite length_take, length_drop. }
  lia.
Qed.

Lemma scan_step_at_eof rtm self f c :
  remaining f = 0%nat → scan_step rtm self f ≠ Ok c.
Proof.
  intros Hr H. apply scan_step_Ok in H as (_ & Hp & _).
  unfold remaining in Hr. lia.
Qed.

Lemma scan_at_eof (fuel : nat) rtm self f r :
  remaining f = 0%nat → scan fuel rtm self f ≠ Ok r.
Proof.
  intros Hr H. destruct fuel; [discriminate|]. rewrite scan_S in H.
  apply bind_Ok in H as (c & Hc & _). by eapply scan_step_at_eof.
Qed.

(** After one section, either every read so far was complete, or the
    payload read came back short and the file is at its end. *)
Lemma dispatch_reads rtm self name L f c :
  dispatch rtm self name L f = Ok c → all_full (reads f) →
  all_full (reads (ctl_file c))
  ∨ (∃ s f', c = Continue s f' ∧ remaining f' = 0%nat).
Proof.
  unfold dispatch. intros H Hfull. destruct (bytes_eqb name tag_CHIX).
  { apply bind_Ok in H as ([idx f3] & Hri & H). injection H as <-.
    apply read_index_frame in Hri as (_ & ->). left.
    cbn [ctl_file reads]. apply Forall_app. split; [apply record_reads_full|done]. }
  destruct (bytes_eqb name tag_DATA).
  { destruct rtm.
    - apply bind_Ok in H as ([rest f3] & Hr & H). cbn beta iota zeta in H.
      apply bind_Ok in H as (p & _ & H). injection H as <-.
      apply read_Ok in Hr as (_ & _ & ->). left.
      cbn [ctl_file close_stream reads]. by constructor.
    - injection H as <-. by left. }
  apply bind_Ok in H as ([data f3] & Hr & H). cbn beta iota in H.
  apply bind_Ok in H as (s & _ & H). injection H as <-.
  destruct (short_read (L, length data)) eqn:Hs.
  - right. exists s, f3. split; [done|]. by eapply read_short_eof.
  - left. apply read_Ok in Hr as (_ & _ & ->).
    cbn [ctl_file reads]. by constructor.
Qed.

Lemma scan_reads (fuel : nat) rtm self f h f' :
  scan fuel rtm self f = Ok (h, f') → all_full (reads f) → all_full (reads f').
Proof.
  revert self f. induction fuel as [|fuel IH]; intros self f H Hfull; [discriminate|].
  rewrite scan_S in H. apply bind_Ok in H as (c & Hstep & H).
  apply scan_step_Ok in Hstep as (_ & _ & L & _ & Hd).
  apply dispatch_reads in Hd as [Hd | (s & f1 & -> & Heof)].
  - destruct c as [s1 f1|s1 f1]; [by eapply IH|]. by injection H as <- <-.
  - by apply scan_at_eof in H.
  - cbn [reads]. by repeat constructor.
Qed.

(** Every read of a constructor call that returned a valid instance was
    complete. *)
Lemma init_reads (path : bytes) rtm miss h f :
  __init__ path rtm miss = Ok (h, f) → is_pf2 h = true → all_full (reads f).
Proof.
  intros H Hv. apply init_good_magic in H as (_ & H); [|done].
  apply scan_reads in H; [done|]. by repeat constructor.
Qed.

(** ** Buffered against streaming lookups *)

Lemma get_char_seek_negative (self : PF2) (cp : Z) index c k d corr :
  character_index self = Some index →
  entry_for index (missing_character_code self) cp = Some (c, k) →
  data_io self = Some d → data_offset self = Some corr →
  closed d = false → k + corr < 0 →
  get_char self cp =
  Raise (match kind d with DiskFile => OSError | BytesIO => ValueError end).
Proof.
  intros Hidx He Hd Hcorr Hcl Hk. unfold get_char. rewrite Hidx.
  cbn beta iota delta [mbind result_bind attr].
  unfold entry_for in He.
  destruct (index !! cp) as [e|].
  - injection He as ->. cbn beta iota delta [mbind result_bind].
    rewrite Hd, Hcorr. cbn beta iota delta [mbind result_bind attr].
    unfold seek. rewrite Hcl. by destruct (k + corr <? 0) eqn:E; [|lia].
  - rewrite He. cbn beta iota delta [mbind result_bind].
    rewrite Hd, Hcorr. cbn beta iota delta [mbind result_bind attr].
    unfold seek. rewrite Hcl. by destruct (k + corr <? 0) eqn:E; [|lia].
Qed.

(** An instance on which a lookup returns is a valid one. *)
Lemma init_index_valid (path : bytes) rtm miss h f index :
  __init__ path rtm miss = Ok (h, f) → character_index h = Some index →
  is_pf2 h = true.
Proof.
  rewrite init_unfold. destruct (bytes_eqb (take 12 path) magic) eqn:E.
  - destruct rtm.
    + change (new_PF2 true miss true)
        with (with_in_memory true (new_PF2 true miss false)).
      rewrite scan_modes. intros H _.
      apply bind_Ok in H as ([s f1] & Hs & H).
      apply scan_streaming in Hs as (_ & _ & _ & _ & _ & Hv & _).
      cbn beta iota in H. injection H as <- <-. exact Hv.
    + intros H _. by apply scan_streaming in H as (_ & _ & _ & _ & _ & Hv & _).
  - intros [= <- <-]. discriminate.
Qed.

(** What the streaming constructor returns on a valid file. *)
Lemma init_streaming (path : bytes) miss h f :
  __init__ path false miss = Ok (h, f) → is_pf2 h = true →
  data_io h = Some f ∧ data_offset h = Some 0
  ∧ kind f = DiskFile ∧ content f = path ∧ closed f = false
  ∧ missing_character_code h = miss ∧ in_memory h = false
  ∧ (20 ≤ pos f ≤ length path)%nat
  ∧ take 4 (drop (pos f - 8) path) = tag_DATA.
Proof.
  intros H Hv. apply init_good_magic in H as (_ & H); [|done].
  apply scan_streaming in H as (? & ? & ? & ? & ? & ? & ? & ? & ? & ?).
  cbn [pos content kind closed reads] in *. repeat split; try done; lia.
Qed.

(** What the buffered constructor returns on the same file: the index
    of the streaming instance, a [BytesIO] over the [DATA] payload, and
    minus the length of the whole file as the correction. *)
Lemma init_buffered (path : bytes) miss hs fs :
  __init__ path false miss = Ok (hs, fs) → is_pf2 hs = true →
  ∃ hb fb,
    __init__ path true miss = Ok (hb, fb)
    ∧ is_pf2 hb = true ∧ in_memory hb = true
    ∧ missing_character_code hb = miss
    ∧ character_index hb = character_index hs
    ∧ data_io hb = Some (new_BytesIO (drop (pos fs) path))
    ∧ data_offset hb = Some (- Z.of_nat (length path))
    ∧ closed fb = true.
Proof.
  intros H Hv. pose proof (init_streaming _ _ _ _ H Hv)
    as (_ & _ & _ & Hc & _ & Hm & _ & Hp & _).
  rewrite init_modes, H. cbn beta iota delta [mbind result_bind]. rewrite Hv.
  eexists _, _. split; [reflexivity|].
  unfold buffered_of. cbn. rewrite Hc, length_drop.
  repeat split; try done. do 2 f_equal. lia.
Qed.

(** Wherever a streaming lookup returns a glyph, the buffered lookup of
    the same code point in the same file raises: the correction is
    minus the file length, so the seek target is negative. *)
Lemma buffered_lookup_raises (path : bytes) miss hs fs cp g hs' :
  __init__ path false miss = Ok (hs, fs) →
  get_char hs cp = Ok (g, hs') →
  ∃ hb fb, __init__ path true miss = Ok (hb, fb)
           ∧ get_char hb cp = Raise ValueError.
Proof.
  intros Hinit Hget.
  apply get_char_Ok in Hget
    as (index & c & k & d & corr & Hidx & He & Hd & Hcorr & _ & Hk & Hlen & _).
  pose proof (init_index_valid _ _ _ _ _ _ Hinit Hidx) as Hv.
  pose proof (init_streaming _ _ _ _ Hinit Hv)
    as (Hd' & Hcorr' & _ & Hc & _ & Hm & _).
  assert (d = fs) as -> by congruence. assert (corr = 0) as -> by congruence.
  destruct (init_buffered _ _ _ _ Hinit Hv)
    as (hb & fb & Hb & _ & _ & Hmb & Hib & Hdb & Hcb & _).
  exists hb, fb. split; [done|].
  rewrite Hc in Hlen.
  rewrite (get_char_seek_negative hb cp index c k
             (new_BytesIO (drop (pos fs) path)) (- Z.of_nat (length path)));
    [done | congruence | congruence | done | done | done | lia].
Qed.

(** C2 (code defect): on the sample font the streaming lookup of 'A'
    returns the 5 x 3 glyph stored at byte 78, and the buffered lookup
    of 'A' raises [ValueError].  The buffered constructor takes
    [-file.tell()] after [file.read()] has moved the cursor to the end
    of the file, so the correction is -90 (the file length) where the
    [DATA] payload, which the buffer holds, starts at byte 66.
    [buffered_lookup_raises] shows this for every file. *)
Theorem C2_buffered_lookup_raises_on_sample :
  lookup_in font_sample false 63 65
    = Ok (mkCharacter 5 3 1 0 6 [xaa; x54])
  ∧ lookup_in font_sample true 63 65 = Raise ValueError
  ∧ data_offset (opened font_sample true) = Some (-90)
  ∧ length font_sample = 90%nat
  ∧ (length font_sample - length (data_section font_sample) = 66)%nat.
Proof. repeat split; vm_compute; reflexivity. Qed.

(** ** Where a lookup reads *)




(** ** Lookups and the cursor *)

Lemma agree_bind {A B C D} (R : A → B → Prop) (Q : C → D → Prop)
    (m : result A) (n : result B) (k : A → result C) (l : B → result D) :
  agree R m n → (∀ a b, R a b → agree Q (k a) (l b)) →
  agree Q (m ≫= k) (n ≫= l).
Proof. destruct m, n; cbn; try done. intros H Hk. by apply Hk. Qed.

Lemma agree_eq {A} (r s : result A) : agree eq r s → r = s.
Proof. destruct r, s; cbn; try done; by intros ->. Qed.

Lemma agree_refl {A} (r : result A) : agree eq r r.
Proof. by destruct r. Qed.

Lemma read_same (n : Z) (s t : stream) :
  same_file s t →
  agree (λ x y, x.1 = y.1 ∧ same_file x.2 y.2) (read n s) (read n t).
Proof.
  intros ((Hk & Hc & Hcl) & Hp). unfold read. rewrite Hcl, Hc, Hp.
  destruct (closed t); cbn; [done|]. by repeat split.
Qed.

Lemma seek_same (n : Z) (s t : stream) :
  same_source s t → agree same_file (seek n s) (seek n t).
Proof.
  intros (Hk & Hc & Hcl). unfold seek. rewrite Hcl, Hk, Hc.
  destruct (closed t); cbn; [done|]. destruct (n <? 0); cbn; [done|].
  by repeat split.
Qed.

Ltac agree_read :=
  eapply agree_bind; [by apply read_same|];
  intros [? ?] [? ?] [? ?]; cbn [fst snd] in *; subst.

Ltac agree_pure :=
  eapply agree_bind; [apply agree_refl|]; intros ? ? <-.

(** The glyph a lookup returns, or the exception it raises, depends
    neither on where the cursor of [data_io] stands nor on its trace:
    [get_char] seeks to an absolute position first. *)
Lemma get_char_same_source (self : PF2) (d t : stream) (cp : Z) :
  data_io self = Some d → same_source t d →
  glyph_of (get_char (set_data_io t self) cp) = glyph_of (get_char self cp).
Proof.
  intros Hd Hs. apply agree_eq. unfold glyph_of, get_char.
  eapply agree_bind with (R := λ x y, x.1 = y.1);
    [|by intros [g1 s1] [g2 s2] [= ->]].
  cbn [character_index set_data_io missing_character_code data_io data_offset].
  agree_pure. agree_pure. destruct a0 as [c k].
  rewrite Hd. cbn [attr mbind result_bind].
  agree_pure.
  eapply agree_bind; [by apply seek_same|]. intros d1 d2 H12.
  agree_read. agree_pure.
  agree_read. agree_pure.
  agree_read. agree_pure.
  agree_read. agree_pure.
  agree_read. agree_pure.
  agree_read. done.
Qed.

(** So a lookup made after another one that returned gives what it
    would have given in its place. *)
Lemma get_char_after_lookup (self : PF2) (cp0 : Z) (g0 : Character) (self' : PF2) (cp : Z) :
  get_char self cp0 = Ok (g0, self') →
  missing_character_code self' = missing_character_code self
  ∧ character_index self' = character_index self
  ∧ in_memory self' = in_memory self
  ∧ (∃ d', data_io self' = Some d')
  ∧ glyph_of (get_char self' cp) = glyph_of (get_char self cp).
Proof.
  intros H. apply get_char_Ok in H
    as (index & c & k & d & corr & _ & _ & Hd & _ & Hcl & _ & _ & _ & ->).
  repeat split; [by eexists|].
  apply (get_char_same_source self d); [done|].
  by repeat split.
Qed.

(** ** Lookup misses *)

(** C4: for a code point that is not in the index, the lookup is the
    lookup of the missing-character code point when that one has an
    entry (same glyph, same state of the file object afterwards, same
    exception if decoding fails), also when the second lookup is made
    after the first on the instance the first one left; and it raises
    [KeyError] without touching the file when the missing-character
    code point has no entry either. *)
Theorem C4_missing_character_fallback
    (self : PF2) (index : gmap Z (Z * Z)) (cp : Z) :
  character_index self = Some index →
  index !! cp = None →
  (is_Some (index !! missing_character_code self) →
     get_char self cp = get_char self (missing_character_code self)
     ∧ ∀ g self', get_char self cp = Ok (g, self') →
         glyph_of (get_char self' (missing_character_code self')) = Ok g)
  ∧ (index !! missing_character_code self = None →
     get_char self cp = Raise KeyError).
Proof.
  intros Hidx Hcp.
  assert (is_Some (index !! missing_character_code self) →
          get_char self cp = get_char self (missing_character_code self)) as Heq.
  { unfold get_char. rewrite Hidx.
    cbn beta iota delta [mbind result_bind attr]. rewrite Hcp.
    intros [e He]. by rewrite He. }
  split.
  - intros Hm. split; [by apply Heq|]. intros g self' Hg.
    destruct (get_char_after_lookup self cp g self' (missing_character_code self) Hg)
      as (-> & _ & _ & _ & ->).
    rewrite <- (Heq Hm), Hg. reflexivity.
  - intros Hm. unfold get_char. rewrite Hidx.
    cbn beta iota delta [mbind result_bind attr]. by rewrite Hcp, Hm.
Qed.

Lemma C4_missing_character_witness :
  get_char (opened font_sample false) 66 = get_char (opened font_sample false) 63
  ∧ get_char (opened font_truncated false) 66 = Raise KeyError.
Proof.
  split.
  - with_instance font_sample false 63 ltac:(fun h f =>
      let i := eval vm_compute in (character_index h) in
      lazymatch i with
      | Some ?idx =>
          destruct (C4_missing_character_fallback h idx 66
                      ltac:(by_evaluation) ltac:(by_evaluation)) as [Hsome _]
      end).
    apply Hsome. vm_compute. eexists. reflexivity.
  - with_instance font_truncated false 63 ltac:(fun h f =>
      let i := eval vm_compute in (character_index h) in
      lazymatch i with
      | Some ?idx =>
          destruct (C4_missing_character_fallback h idx 66
                      ltac:(by_evaluation) ltac:(by_evaluation)) as [_ Hnone]
      end).
    apply Hnone. vm_compute. reflexivity.
Defined.

(** ** Files that are not PF2 *)

(** C5: when the first 12 bytes are not the magic, the constructor
    returns an instance with [is_pf2] false and no other attribute
    assigned beyond the two constructor arguments; the one [read(12)]
    is the only read made on the file; and every lookup on that
    instance raises [AttributeError] at its first statement, before any
    index or data state is read. *)
Theorem C5_bad_magic_gives_invalid_instance
    (path : bytes) (read_to_mem : bool) (miss : Z) :
  take 12 path ≠ magic →
  ∃ f, __init__ path read_to_mem miss = Ok (new_PF2 false miss read_to_mem, f)
       ∧ reads f = [(12, length (take 12 path))]
       ∧ pos f = length (take 12 path)
       ∧ ∀ cp, get_char (new_PF2 false miss read_to_mem) cp = Raise AttributeError.
Proof.
  intros H. exists (after_magic path). rewrite init_bad_magic by done.
  repeat split.
Qed.

Lemma C5_bad_magic_witness :
  ∃ f, __init__ (x47 :: drop 1 font_sample) false 63 = Ok (new_PF2 false 63 false, f)
       ∧ reads f = [(12, 12%nat)].
Proof.
  destruct (C5_bad_magic_gives_invalid_instance (x47 :: drop 1 font_sample) false 63)
    as (f & Hf & Hr & _ & _).
  - vm_compute. discriminate.
  - exists f. split; [exact Hf | exact Hr].
Defined.

(** ** The index section *)

Lemma read_bind {B} (n : nat) (f : stream) (k : bytes * stream → result B) :
  closed f = false → (pos f + n ≤ length (content f))%nat →
  read (Z.of_nat n) f ≫= k =
  k (take n (drop (pos f) (content f)),
     Stream (kind f) (content f) (pos f + n) false ((Z.of_nat n, n) :: reads f)).
Proof. intros Hc Hp. by rewrite read_full. Qed.



(** One record: nine bytes, decoded by [int32be], [b[0]], [int32be], and
    stored under the decoded code point. *)
Lemma read_index_1 idx f idx' f' :
  read_index 1 idx f = Ok (idx', f') →
  ∃ cp cm off,
    int32be (take 4 (drop (pos f) (content f))) = Ok cp
    ∧ getitem (take 1 (drop (pos f + 4) (content f))) 0 = Ok cm
    ∧ int32be (take 4 (drop (pos f + 5) (content f))) = Ok off
    ∧ idx' = <[cp := (cm, off)]> idx.
Proof.
  unfold read_index. intros H.
  apply bind_Ok in H as ([b1 f1] & Hr1 & H). cbn beta iota in H.
  apply bind_Ok in H as (cp & Hcp & H).
  apply bind_Ok in H as ([b2 f2] & Hr2 & H). cbn beta iota in H.
  apply bind_Ok in H as (cm & Hcm & H).
  apply bind_Ok in H as ([b3 f3] & Hr3 & H). cbn beta iota in H.
  apply bind_Ok in H as (off & Hoff & H). injection H as <- <-.
  apply (read_sized 4) in Hr1 as (-> & _ & ->); [|apply int32be_Ok in Hcp; lia].
  apply (read_sized 1) in Hr2 as (-> & _ & ->); [|apply getitem0_Ok in Hcm; lia].
  apply (read_sized 4) in Hr3 as (-> & _ & ->); [|apply int32be_Ok in Hoff; lia].
  cbn [pos content kind closed reads] in *.
  replace (pos f + 4 + 1)%nat with (pos f + 5)%nat in Hoff by lia.
  by exists cp, cm, off.
Qed.

(** The loop handles the records in file order. *)
Lemma read_index_snoc (n : nat) idx f :
  read_index (S n) idx f =
  read_index n idx f ≫= λ '(idx1, f1), read_index 1 idx1 f1.
Proof.
  revert idx f. induction n as [|n IH]; intros idx f; [done|].
  change (read_index (S (S n)) idx f) with
    ('(b, file) ← read 4 f;
     code_point ← int32be b;
     '(b, file) ← read 1 file;
     compression ← getitem b 0;
     '(b, file) ← read 4 file;
     offset ← int32be b;
     read_index (S n) (<[code_point := (compression, offset)]> idx) file).
  change (read_index (S n) idx f) with
    ('(b, file) ← read 4 f;
     code_point ← int32be b;
     '(b, file) ← read 1 file;
     compression ← getitem b 0;
     '(b, file) ← read 4 file;
     offset ← int32be b;
     read_index n (<[code_point := (compression, offset)]> idx) file).
  destruct (read 4 f) as [[b1 f1]| |]; [|done..].
  cbn beta iota delta [mbind result_bind].
  destruct (int32be b1) as [cp| |]; [|done..].
  cbn beta iota delta [mbind result_bind].
  destruct (read 1 f1) as [[b2 f2]| |]; [|done..].
  cbn beta iota delta [mbind result_bind].
  destruct (getitem b2 0) as [cm| |]; [|done..].
  cbn beta iota delta [mbind result_bind].
  destruct (read 4 f2) as [[b3 f3]| |]; [|done..].
  cbn beta iota delta [mbind result_bind].
  destruct (int32be b3) as [off| |]; [|done..].
  cbn beta iota delta [mbind result_bind].
  apply IH.
Qed.

(** Last write wins: after [n + 1] records the entry under the code
    point of the last record is that record's, and every other key is
    as the first [n] records left it. *)
Lemma read_index_last_write_wins (n : nat) idx f idx' f' :
  read_index (S n) idx f = Ok (idx', f') →
  ∃ idx1 f1 cp cm off,
    read_index n idx f = Ok (idx1, f1)
    ∧ int32be (take 4 (drop (pos f + 9 * n) (content f))) = Ok cp
    ∧ getitem (take 1 (drop (pos f + 9 * n + 4) (content f))) 0 = Ok cm
    ∧ int32be (take 4 (drop (pos f + 9 * n + 5) (content f))) = Ok off
    ∧ idx' !! cp = Some (cm, off)
    ∧ ∀ key, key ≠ cp → idx' !! key = idx1 !! key.
Proof.
  rewrite read_index_snoc. intros H.
  apply bind_Ok in H as ([idx1 f1] & Hn & H). cbn beta iota in H.
  apply read_index_1 in H as (cp & cm & off & Hcp & Hcm & Hoff & ->).
  apply read_index_frame in Hn as Hf. destruct Hf as (_ & ->).
  cbn [pos content kind closed reads] in *.
  eexists idx1, _, cp, cm, off. split; [exact Hn|].
  repeat split; try done.
  - apply lookup_insert_eq.
  - intros key Hne. by apply lookup_insert_ne.
Qed.

(** C6 (code defect, the one of C1): the scanner reads one 9-byte
    record for the index section of declared length 9 in [font_16M] and
    stores it under code point 65, but the offset bytes 01 00 00 00 go
    through [int32be], which returns 2^32 where the big-endian signed
    value is 2^24.  The number of records, their 4 + 1 + 4 layout and
    the order of insertion are as claimed ([read_index_frame],
    [read_index_returns], [read_index_last_write_wins]). *)
Theorem C6_index_offset_first_byte_at_bit_32 :
  (character_index (opened font_16M false) ≫= λ index, index !! 65)
    = Some (0, 4294967296)
  ∧ twos_complement 32 (be_unsigned [x01; x00; x00; x00]) = 16777216.
Proof. split; vm_compute; reflexivity. Qed.

(** ** The glyph record *)

Lemma uint16be_be (b : bytes) (v : Z) :
  length b = 2%nat → uint16be b = Ok v → v = be_unsigned b.
Proof.
  destruct b as [|x [|y [|z b]]]; try discriminate. intros _.
  rewrite uint16be_correct. by intros [= <-].
Qed.

Lemma int16be_be (b : bytes) (v : Z) :
  length b = 2%nat → int16be b = Ok v → v = twos_complement 16 (be_unsigned b).
Proof.
  destruct b as [|x [|y [|z b]]]; try discriminate. intros _.
  rewrite int16be_correct. by intros [= <-].
Qed.

(** C7 (counterexample): in [font_truncated] the glyph of 'A' announces
    8 x 8 pixels, hence 8 bitmap bytes, and the file ends after 3; the
    lookup returns a glyph whose [bitmap_data] has 3 bytes. *)
Lemma C7_truncated_bitmap_is_returned :
  ¬ bitmap_always_complete (opened font_truncated false) 65.
Proof.
  intros H.
  with_instance font_truncated false 63 ltac:(fun h f =>
    let r := eval vm_compute in (get_char h 65) in
    lazymatch r with
    | Ok (?g, ?h') => pose proof (H g h' ltac:(by_evaluation)) as D
    end).
  vm_compute in D. discriminate D.
Qed.

(** C7 (as amended): a lookup that returns has decoded, at the byte the
    seek went to, width and height as unsigned and x_offset, y_offset
    and device_width as signed 16-bit big-endian fields, in this order,
    and [bitmap_data] holds the bytes that follow the header, up to
    ceil(width * height / 8) of them: exactly that many when the data
    source still holds them, all that is left otherwise. *)
Theorem C7_glyph_record_layout (self : PF2) (cp : Z) (g : Character) (self' : PF2) :
  get_char self cp = Ok (g, self') →
  ∃ index c k d corr,
    character_index self = Some index
    ∧ entry_for index (missing_character_code self) cp = Some (c, k)
    ∧ data_io self = Some d ∧ data_offset self = Some corr ∧ 0 ≤ k + corr
    ∧ let p := Z.to_nat (k + corr) in
      let n := (width g * height g + 7) / 8 in
      let field i := take 2 (drop (p + i) (content d)) in
      width g = be_unsigned (field 0%nat)
      ∧ height g = be_unsigned (field 2%nat)
      ∧ x_offset g = twos_complement 16 (be_unsigned (field 4%nat))
      ∧ y_offset g = twos_complement 16 (be_unsigned (field 6%nat))
      ∧ device_width g = twos_complement 16 (be_unsigned (field 8%nat))
      ∧ 8 * (n - 1) < width g * height g ≤ 8 * n
      ∧ bitmap_data g = take (Z.to_nat n) (drop (p + 10) (content d))
      ∧ length (bitmap_data g) = (Z.to_nat n `min` (length (content d) - (p + 10)))%nat.
Proof.
  intros H. apply get_char_Ok in H
    as (index & c & k & d & corr & Hidx & He & Hd & Hcorr & _ & Hk & Hlen & Hdec & _).
  exists index, c, k, d, corr. repeat (split; [done|]).
  destruct Hdec as (Hw & Hh & Hx & Hy & Hdw & Hbm).
  set (p := Z.to_nat (k + corr)) in *. cbn beta zeta.
  assert (∀ v, (v ≤ 8)%nat → length (take 2 (drop (p + v) (content d))) = 2%nat) as Hl.
  { intros v Hv. rewrite length_take, length_drop. lia. }
  rewrite Nat.add_0_r.
  pose proof (Hl 0%nat ltac:(lia)) as Hl0. rewrite Nat.add_0_r in Hl0.
  split; [by apply uint16be_be|].
  split; [apply uint16be_be; [apply Hl; lia | done]|].
  split; [apply int16be_be; [apply Hl; lia | done]|].
  split; [apply int16be_be; [apply Hl; lia | done]|].
  split; [apply int16be_be; [apply Hl; lia | done]|].
  split.
  { pose proof (Z.div_mod (width g * height g + 7) 8 ltac:(lia)) as Hdm.
    pose proof (Z.mod_pos_bound (width g * height g + 7) 8 ltac:(lia)). lia. }
  split; [done|].
  rewrite Hbm at 1. by rewrite length_take, length_drop.
Qed.

Lemma C7_glyph_record_witness :
  ∃ g h', get_char (opened font_sample false) 65 = Ok (g, h')
          ∧ 8 * ((width g * height g + 7) / 8 - 1)
              < width g * height g ≤ 8 * ((width g * height g + 7) / 8).
Proof.
  with_instance font_sample false 63 ltac:(fun h f =>
    let r := eval vm_compute in (get_char h 65) in
    lazymatch r with
    | Ok (?g, ?h') =>
        exists g, h';
        destruct (C7_glyph_record_layout h 65 g h' ltac:(by_evaluation))
          as (index & c & k & d & corr & _ & _ & _ & _ & _ & _ & _ & _ & _ & _ & Hceil & _ & _)
    end).
  split; [by_evaluation | exact Hceil].
Defined.

(** ** Short reads *)

Lemma bind_not_Diverge {A B} (m : result A) (k : A → result B) :
  m ≠ Diverge → (∀ a, k a ≠ Diverge) → m ≫= k ≠ Diverge.
Proof. destruct m; [intros _ Hk; apply Hk | done | done]. Qed.

Lemma attr_not_Diverge {A} (o : option A) : attr o ≠ Diverge.
Proof. by destruct o. Qed.

Lemma seek_not_Diverge (n : Z) (f : stream) : seek n f ≠ Diverge.
Proof. unfold seek. destruct (closed f); [done|]. by destruct (n <? 0). Qed.

(** A lookup returns or raises. *)
Lemma get_char_not_Diverge (self : PF2) (cp : Z) : get_char self cp ≠ Diverge.
Proof.
  unfold get_char.
  apply bind_not_Diverge; [apply attr_not_Diverge|]. intros index.
  apply bind_not_Diverge.
  { destruct (index !! cp); [done|].
    by destruct (index !! missing_character_code self). }
  intros [c k].
  apply bind_not_Diverge; [apply attr_not_Diverge|]. intros d.
  apply bind_not_Diverge; [apply attr_not_Diverge|]. intros corr.
  apply bind_not_Diverge; [apply seek_not_Diverge|]. intros d0.
  apply bind_not_Diverge; [apply read_not_Diverge|]. intros [b1 d1].
  apply bind_not_Diverge; [apply uint16be_not_Diverge|]. intros w.
  apply bind_not_Diverge; [apply read_not_Diverge|]. intros [b2 d2].
  apply bind_not_Diverge; [apply uint16be_not_Diverge|]. intros h.
  apply bind_not_Diverge; [apply read_not_Diverge|]. intros [b3 d3].
  apply bind_not_Diverge; [apply int16be_not_Diverge|]. intros xo.
  apply bind_not_Diverge; [apply read_not_Diverge|]. intros [b4 d4].
  apply bind_not_Diverge; [apply int16be_not_Diverge|]. intros yo.
  apply bind_not_Diverge; [apply read_not_Diverge|]. intros [b5 d5].
  apply bind_not_Diverge; [apply int16be_not_Diverge|]. intros dw.
  apply bind_not_Diverge; [apply read_not_Diverge|]. by intros [bm d6].
Qed.

(** C8 (counterexample): the lookup of 'A' in [font_truncated] asks for
    8 bitmap bytes, gets 3, and returns a glyph. *)
Lemma C8_short_bitmap_read_returns :
  ¬ short_reads_always_raise (opened font_truncated false) 65.
Proof.
  intros H.
  with_instance font_truncated false 63 ltac:(fun h f =>
    let r := eval vm_compute in (get_char h 65) in
    lazymatch r with
    | Ok (?g, ?h') =>
        let d := eval vm_compute in (data_io h') in
        lazymatch d with
        | Some ?d' =>
            pose proof (H g h' d' ltac:(by_evaluation) ltac:(by_evaluation)) as D
        end
    end).
  apply Forall_cons in D as [D _]. vm_compute in D. discriminate D.
Qed.

(** C8 (as amended): a constructor call that gets past the magic check
    and returns has made no short read, and a lookup that returns has
    read each of the five header fields in full, so a short read in the
    scan or in the glyph header makes the call raise (neither call can
    run forever).  The read of the bitmap bytes is the exception: a
    lookup that has an index entry to go by and finds the ten header
    bytes in its open data source returns, however few bytes are left
    behind the header, and its bitmap is what that read returned, short
    or not.  (A file shorter than the magic fails the magic check and
    yields the invalid instance of C5.) *)
Theorem C8_short_reads_raise_except_bitmap
    (path : bytes) (read_to_mem : bool) (miss : Z) (self : PF2) (cp : Z) :
  (∀ h f, __init__ path read_to_mem miss = Ok (h, f) → is_pf2 h = true →
          all_full (reads f))
  ∧ __init__ path read_to_mem miss ≠ Diverge
  ∧ (∀ g self', get_char self cp = Ok (g, self') →
       ∃ d d', data_io self = Some d ∧ data_io self' = Some d'
         ∧ reads d' =
             ((width g * height g + 7) / 8, length (bitmap_data g))
             :: (2, 2%nat) :: (2, 2%nat) :: (2, 2%nat) :: (2, 2%nat)
             :: (2, 2%nat) :: reads d)
  ∧ get_char self cp ≠ Diverge
  ∧ (∀ index c k d corr,
       character_index self = Some index →
       entry_for index (missing_character_code self) cp = Some (c, k) →
       data_io self = Some d → data_offset self = Some corr →
       closed d = false → 0 ≤ k + corr →
       (Z.to_nat (k + corr) + 10 ≤ length (content d))%nat →
       ∃ g self', get_char self cp = Ok (g, self')
         ∧ bitmap_data g
           = take (Z.to_nat ((width g * height g + 7) / 8))
                  (drop (Z.to_nat (k + corr) + 10) (content d))
         ∧ length (bitmap_data g)
           = (Z.to_nat ((width g * height g + 7) / 8)
              `min` (length (content d) - (Z.to_nat (k + corr) + 10)))%nat).
Proof.
  split; [intros h f; apply init_reads|].
  split; [apply init_not_Diverge|].
  split; [|split; [apply get_char_not_Diverge|]].
  - intros g self' H. apply get_char_Ok in H
      as (index & c & k & d & corr & _ & _ & Hd & _ & _ & _ & _ & _ & ->).
    exists d, (after_lookup d (Z.to_nat (k + corr)) g). by repeat split.
  - intros index c k d corr Hi He Hd Hc Hcl Hk Hlen.
    destruct (get_char_returns self cp index c k d corr) as (g & Hg & Hdec);
      try done.
    destruct Hdec as (_ & _ & _ & _ & _ & Hb).
    exists g, (set_data_io (after_lookup d (Z.to_nat (k + corr)) g) self).
    split; [done|]. split; [done|].
    rewrite Hb at 1. by rewrite length_take, length_drop.
Qed.

Lemma C8_short_reads_witness :
  (∀ h f, __init__ font_sample true 63 = Ok (h, f) → is_pf2 h = true →
          all_full (reads f))
  ∧ ∃ g self' d', get_char (opened font_truncated false) 65 = Ok (g, self')
      ∧ data_io self' = Some d'
      ∧ take 6 (reads d')
        = [(8, 3%nat); (2, 2%nat); (2, 2%nat); (2, 2%nat); (2, 2%nat); (2, 2%nat)].
Proof.
  destruct (C8_short_reads_raise_except_bitmap
              font_sample true 63 (opened font_truncated false) 65)
    as (Hinit & _ & Hget & _ & Hret).
  split; [exact Hinit|].
  with_instance font_truncated false 63 ltac:(fun h f =>
    let i := eval vm_compute in (character_index h) in
    lazymatch i with
    | Some ?idx =>
        destruct (Hret idx 0 37 f 0 ltac:(by_evaluation) ltac:(by_evaluation)
                    ltac:(by_evaluation) ltac:(by_evaluation)
                    ltac:(by_evaluation) ltac:(vm_compute; discriminate)
                    ltac:(vm_compute; lia))
          as (g & h' & Hg & Hb & _)
    end).
  destruct (Hget g h' Hg) as (d & d' & _ & Hd' & Hr).
  exists g, h', d'. split; [exact Hg|]. split; [exact Hd'|].
  rewrite Hr. vm_compute in Hg. injection Hg as <- _. reflexivity.
Defined.

(** ** [close] *)

Lemma init_valid_data_io (path : bytes) rtm miss h f :
  __init__ path rtm miss = Ok (h, f) → is_pf2 h = true →
  in_memory h = rtm ∧ ∃ d, data_io h = Some d.
Proof.
  destruct rtm; intros H Hv.
  - rewrite init_modes in H. apply bind_Ok in H as ([s f1] & Hs & H).
    cbn beta iota in H. destruct (is_pf2 s) eqn:E.
    + injection H as <- <-. split; [done|]. by eexists.
    + injection H as <- <-. cbn in Hv. congruence.
  - apply init_streaming in H as (Hd & _ & _ & _ & _ & _ & Hm & _); [|done].
    split; [done|]. by eexists.
Qed.

(** On an instance whose [data_io] is assigned, [close] returns, a
    second [close] returns the same instance again, and in memory mode
    nothing changes at all. *)
Lemma close_twice (self : PF2) (d : stream) :
  data_io self = Some d →
  ∃ self1, close self = Ok self1 ∧ close self1 = Ok self1
           ∧ (in_memory self = true → self1 = self)
           ∧ (in_memory self = false →
                self1 = set_data_io (close_stream d) self).
Proof.
  intros Hd. unfold close. destruct (in_memory self) eqn:Hm;
    cbn beta iota delta [negb].
  - exists self. rewrite Hm. cbn beta iota delta [negb]. by repeat split.
  - rewrite Hd. cbn beta iota delta [mbind result_bind attr].
    exists (set_data_io (close_stream d) self).
    split; [done|]. split; [|by split].
    destruct self. cbn in *. by rewrite Hm.
Qed.

(** Lookups that return keep [data_io] assigned and leave the mode as
    it is. *)
Lemma after_lookups_data_io (h h' : PF2) (d : stream) :
  after_lookups h h' → data_io h = Some d →
  in_memory h' = in_memory h ∧ ∃ d', data_io h' = Some d'.
Proof.
  intros Hl Hd. induction Hl as [|h1 cp g h2 _ IH Hg]; [by eauto|].
  destruct IH as (Hm & d1 & Hd1).
  destruct (get_char_after_lookup h1 cp g h2 cp Hg) as (_ & _ & Hm2 & Hd2 & _).
  split; [congruence | exact Hd2].
Qed.

(** C9: on an instance returned by the constructor for a file with the
    magic, in the state the constructor left it or after any number of
    lookups that returned, [close] returns; a second [close] returns
    too and leaves the instance as the first one left it; in memory
    mode [close] changes nothing; and a glyph obtained before the two
    calls is the value it was (a [Character] holds integers and an
    immutable [bytes], no reference to the file). *)
Theorem C9_close_is_idempotent
    (path : bytes) (read_to_mem : bool) (miss : Z) (h : PF2) (f : stream)
    (h' : PF2) :
  __init__ path read_to_mem miss = Ok (h, f) → is_pf2 h = true →
  after_lookups h h' →
  (∃ h1, close h' = Ok h1 ∧ close h1 = Ok h1
         ∧ (read_to_mem = true → h1 = h'))
  ∧ (∀ cp g h2, get_char h' cp = Ok (g, h2) →
       lookup_close_close h' cp = Ok g).
Proof.
  intros Hinit Hv Hl.
  destruct (init_valid_data_io _ _ _ _ _ Hinit Hv) as (Hm & d & Hd).
  split.
  - destruct (after_lookups_data_io h h' d Hl Hd) as (Hm' & d' & Hd').
    destruct (close_twice h' d' Hd') as (h1 & H1 & H2 & Hmem & _).
    exists h1. repeat split; try done. intros ->. apply Hmem. congruence.
  - intros cp g h2 Hget.
    assert (after_lookups h h2) as Hl2 by (by eapply lookups_more).
    destruct (after_lookups_data_io h h2 d Hl2 Hd) as (_ & d2 & Hd2).
    destruct (close_twice h2 d2 Hd2) as (h3 & H1 & H2 & _).
    unfold lookup_close_close. rewrite Hget.
    cbn beta iota delta [mbind result_bind]. rewrite H1.
    cbn beta iota delta [mbind result_bind]. by rewrite H2.
Qed.

Lemma C9_close_witness :
  (∃ h1, close (opened font_sample false) = Ok h1 ∧ close h1 = Ok h1)
  ∧ (∃ h1, close (opened font_sample true) = Ok h1 ∧ close h1 = Ok h1
           ∧ h1 = opened font_sample true)
  ∧ lookup_close_close (opened font_sample false) 65
    = Ok (mkCharacter 5 3 1 0 6 [xaa; x54]).
Proof.
  split; [|split].
  - with_instance font_sample false 63 ltac:(fun h f =>
      destruct (C9_close_is_idempotent font_sample false 63 h f h
                  ltac:(by_evaluation) ltac:(by_evaluation)
                  (lookups_none h))
        as ((h1 & H1 & H2 & _) & _)).
    exists h1. split; [exact H1 | exact H2].
  - with_instance font_sample true 63 ltac:(fun h f =>
      destruct (C9_close_is_idempotent font_sample true 63 h f h
                  ltac:(by_evaluation) ltac:(by_evaluation)
                  (lookups_none h))
        as ((h1 & H1 & H2 & Hm) & _)).
    exists h1. split; [exact H1|]. split; [exact H2|]. exact (Hm eq_refl).
  - with_instance font_sample false 63 ltac:(fun h f =>
      let r := eval vm_compute in (get_char h 65) in
      lazymatch r with
      | Ok (?g, ?h2) =>
          destruct (C9_close_is_idempotent font_sample false 63 h f h
                      ltac:(by_evaluation) ltac:(by_evaluation)
                      (lookups_none h))
            as (_ & Hlk);
          exact (Hlk 65 g h2 ltac:(by_evaluation))
      end).
Defined.

(** ** The remainder of an index section *)





(** * Further properties of the module *)

(** ** The decoders *)

Lemma bind_Raise {A B} (m : result A) (k : A → result B) (e : exn) :
  m ≫= k = Raise e → m = Raise e ∨ ∃ a, m = Ok a ∧ k a = Raise e.
Proof. destruct m as [a| |]; cbn; [eauto | intros [= ->]; by left | discriminate]. Qed.

Lemma byte_val_inj (x y : byte) : byte_val x = byte_val y → x = y.
Proof.
  unfold byte_val. intros H. apply N2Z.inj in H.
  apply (f_equal Byte.of_N) in H. rewrite !Byte.of_to_N in H. congruence.
Qed.

Lemma twos_complement16_range (u : Z) :
  0 ≤ u < 65536 → -32768 ≤ twos_complement 16 u < 32768.
Proof.
  intros Hu. unfold twos_complement. change (16 - 1) with 15.
  rewrite Z.testbit_odd, Z.shiftr_div_pow2 by lia. change (2 ^ 15) with 32768.
  change (2 ^ 16) with 65536.
  assert (u < 32768 ∨ 32768 ≤ u) as [H|H] by lia.
  - rewrite Z.div_small by lia. cbn. lia.
  - replace (u `div` 32768) with 1.
    + cbn. lia.
    + apply Z.div_unique with (r := u - 32768); lia.
Qed.

Lemma uint16be_first_two (b : bytes) :
  (2 ≤ length b)%nat → uint16be b = Ok (be_unsigned (take 2 b)).
Proof.
  destruct b as [|x [|y r]]; cbn [length]; [lia..|]. intros _.
  change (take 2 (x :: y :: r)) with [x; y].
  change (uint16be (x :: y :: r)) with (uint16be [x; y]).
  apply uint16be_correct.
Qed.

(** X1: on every input of at least two bytes the 16-bit decoders return
    the unsigned, respectively the two's-complement, big-endian value
    of the first two bytes, in [0, 65536) and [-32768, 32768); further
    bytes are ignored. *)
Theorem X1_decoders16_first_two_bytes (b : bytes) :
  (2 ≤ length b)%nat →
  uint16be b = Ok (be_unsigned (take 2 b))
  ∧ int16be b = Ok (twos_complement 16 (be_unsigned (take 2 b)))
  ∧ 0 ≤ be_unsigned (take 2 b) < 65536
  ∧ -32768 ≤ twos_complement 16 (be_unsigned (take 2 b)) < 32768.
Proof.
  destruct b as [|x [|y r]]; cbn [length]; [lia..|]. intros _.
  change (take 2 (x :: y :: r)) with [x; y].
  change (uint16be (x :: y :: r)) with (uint16be [x; y]).
  change (int16be (x :: y :: r)) with (int16be [x; y]).
  rewrite uint16be_correct, int16be_correct.
  assert (0 ≤ be_unsigned [x; y] < 65536) as Hr.
  { unfold be_unsigned. cbn [fold_left].
    pose proof (byte_val_range x). pose proof (byte_val_range y). lia. }
  repeat split; try lia; by apply twos_complement16_range.
Qed.

Lemma X1_decoders16_witness :
  uint16be [xff; xfe; x07] = Ok 65534 ∧ int16be [xff; xfe; x07] = Ok (-2).
Proof.
  destruct (X1_decoders16_first_two_bytes [xff; xfe; x07]) as (Hu & Hi & _).
  - cbn. lia.
  - split; [exact Hu | exact Hi].
Defined.

(** X2: a decoder raises exactly when its input is too short (fewer
    than 2 bytes for the 16-bit pair, fewer than 4 for the 32-bit
    pair), and then it raises [IndexError]; on longer inputs it
    returns. *)
Theorem X2_decoders_raise_on_short_input (b : bytes) :
  (uint16be b = Raise IndexError ↔ (length b < 2)%nat)
  ∧ (int16be b = Raise IndexError ↔ (length b < 2)%nat)
  ∧ (uint32be b = Raise IndexError ↔ (length b < 4)%nat)
  ∧ (int32be b = Raise IndexError ↔ (length b < 4)%nat)
  ∧ (is_ok (uint16be b) = negb (length b <? 2)%nat)
  ∧ (is_ok (int16be b) = negb (length b <? 2)%nat)
  ∧ (is_ok (uint32be b) = negb (length b <? 4)%nat)
  ∧ (is_ok (int32be b) = negb (length b <? 4)%nat).
Proof.
  destruct b as [|x [|y [|z [|w r]]]]; cbn [length];
    repeat split; intros; try (cbn; lia); try discriminate; try reflexivity.
Qed.

(** X3: [int32be] never returns a negative number: whatever four bytes
    it is given, its result lies in [0, 2^40), and it is the result of
    [uint32be]. *)
Theorem X3_int32be_is_never_negative (b : bytes) (v : Z) :
  int32be b = Ok v → 0 ≤ v < 2 ^ 40 ∧ uint32be b = Ok v.
Proof.
  intros H. pose proof (int32be_Ok _ _ H) as Hl.
  destruct b as [|x [|y [|z [|w r]]]]; cbn [length] in Hl; [lia..|].
  change (int32be (x :: y :: z :: w :: r)) with (int32be [x; y; z; w]) in H.
  change (uint32be (x :: y :: z :: w :: r)) with (uint32be [x; y; z; w]).
  rewrite int32be_is_uint32be in H. split; [|done].
  rewrite uint32be_value in H. injection H as <-.
  pose proof (byte_val_range x). pose proof (byte_val_range y).
  pose proof (byte_val_range z). pose proof (byte_val_range w). lia.
Qed.

Lemma X3_int32be_witness :
  0 ≤ 1095233437695 < 2 ^ 40 ∧ uint32be [xff; xff; xff; xff] = Ok 1095233437695.
Proof. apply (X3_int32be_is_never_negative [xff; xff; xff; xff]). reflexivity. Defined.

(** X4: on 4-byte inputs [int32be] is injective: two index records with
    different code point fields get different keys. *)
Theorem X4_int32be_is_injective (b1 b2 : bytes) :
  length b1 = 4%nat → length b2 = 4%nat → int32be b1 = int32be b2 → b1 = b2.
Proof.
  destruct b1 as [|x1 [|y1 [|z1 [|w1 [|? ?]]]]]; try discriminate.
  destruct b2 as [|x2 [|y2 [|z2 [|w2 [|? ?]]]]]; try discriminate.
  intros _ _. rewrite !int32be_is_uint32be, !uint32be_value. intros [= H].
  pose proof (byte_val_range x1). pose proof (byte_val_range y1).
  pose proof (byte_val_range z1). pose proof (byte_val_range w1).
  pose proof (byte_val_range x2). pose proof (byte_val_range y2).
  pose proof (byte_val_range z2). pose proof (byte_val_range w2).
  assert (byte_val x1 = byte_val x2) by lia.
  assert (byte_val y1 = byte_val y2) by lia.
  assert (byte_val z1 = byte_val z2) by lia.
  assert (byte_val w1 = byte_val w2) by lia.
  f_equal; [|f_equal; [|f_equal; [|f_equal]]]; by apply byte_val_inj.
Qed.

Lemma X4_int32be_witness : [x00; x00; x00; x41] = [x00; x00; x00; x41].
Proof.
  apply X4_int32be_is_injective; reflexivity.
Defined.

(** ** The constructor: termination, exceptions, the file *)

Lemma scan_step_progress8 rtm self f self' f' :
  scan_step rtm self f = Ok (Continue self' f') →
  closed f' = false ∧ (remaining f' + 8 ≤ remaining f)%nat.
Proof.
  intros H. apply scan_step_Ok in H as (Hcl & Hp & L & _ & H).
  apply dispatch_Continue in H as (_ & _ & _ & _ & _ & _ & Hc & Hcl' & Hpos).
  cbn [pos content kind closed reads] in *.
  split; [done|]. unfold remaining. rewrite Hc. lia.
Qed.

Lemma scan_fuel_enough (fuel : nat) rtm self f :
  (remaining f < 8 * fuel)%nat → scan fuel rtm self f ≠ Diverge.
Proof.
  revert self f. induction fuel as [|fuel IH]; intros self f Hf; [lia|].
  rewrite scan_S.
  destruct (scan_step rtm self f) as [[s1 f1|s1 f1]| |] eqn:E;
    cbn beta iota delta [mbind result_bind]; [|done..|].
  - apply scan_step_progress8 in E as (_ & Hlt). apply IH. lia.
  - by apply scan_step_not_Diverge in E.
Qed.

Lemma scan_fuel_mono (n m : nat) rtm self f :
  scan n rtm self f ≠ Diverge → (n ≤ m)%nat →
  scan m rtm self f = scan n rtm self f.
Proof.
  revert m self f. induction n as [|n IH]; intros m self f Hn Hm; [done|].
  destruct m as [|m]; [lia|]. rewrite !scan_S in *.
  destruct (scan_step rtm self f) as [[s1 f1|s1 f1]| |];
    cbn beta iota delta [mbind result_bind] in *; try done.
  apply IH; [done | lia].
Qed.

(** X5: the [while True] loop of the constructor ends on every file.
    Each pass that continues consumes at least the eight bytes of a
    section header, so on a file of [n] bytes the loop is over after at
    most (n - 12) / 8 + 1 passes: any allowance of passes [fuel] with
    n < 8 * fuel + 12 gives the result of the constructor, which is a
    return or an exception. *)
Theorem X5_scan_ends_within_length_over_8_passes
    (path : bytes) (read_to_mem : bool) (miss : Z) (fuel : nat) :
  take 12 path = magic →
  (length path < 8 * fuel + 12)%nat →
  scan fuel read_to_mem (new_PF2 true miss read_to_mem) (after_magic path)
    = __init__ path read_to_mem miss
  ∧ __init__ path read_to_mem miss ≠ Diverge.
Proof.
  intros Hm Hf. split; [|apply init_not_Diverge].
  rewrite init_unfold, Hm, bytes_eqb_refl.
  assert (remaining (after_magic path) < 8 * fuel)%nat as Hr.
  { unfold remaining, after_magic. cbn [pos content]. rewrite Hm.
    change (length magic) with 12%nat.
    apply (f_equal length) in Hm. rewrite length_take in Hm.
    change (length magic) with 12%nat in Hm. lia. }
  pose proof (scan_fuel_enough fuel read_to_mem
                (new_PF2 true miss read_to_mem) (after_magic path) Hr) as Hnd.
  destruct (Nat.le_gt_cases fuel (S (length path))) as [Hle|Hgt].
  - symmetry. by apply scan_fuel_mono.
  - apply scan_fuel_mono; [|lia].
    apply scan_terminates. unfold remaining, after_magic. cbn [pos content]. lia.
Qed.

Lemma X5_scan_witness :
  scan 10 false (new_PF2 true 63 false) (after_magic font_sample)
    = __init__ font_sample false 63
  ∧ __init__ font_sample false 63 ≠ Diverge.
Proof.
  apply X5_scan_ends_within_length_over_8_passes.
  - reflexivity.
  - vm_compute. lia.
Defined.

Lemma read_Raise (n : Z) (f : stream) (e : exn) :
  read n f = Raise e → closed f = true.
Proof. unfold read. by destruct (closed f). Qed.

Lemma getitem_Raise (b : bytes) (i : nat) (e : exn) :
  getitem b i = Raise e → e = IndexError.
Proof. unfold getitem. destruct (b !! i); [discriminate|]. by intros [= <-]. Qed.

Lemma uint16be_Raise (b : bytes) (e : exn) : uint16be b = Raise e → e = IndexError.
Proof. destruct b as [|x [|y r]]; by intros [= <-]. Qed.

Lemma int16be_Raise (b : bytes) (e : exn) : int16be b = Raise e → e = IndexError.
Proof. destruct b as [|x [|y r]]; by intros [= <-]. Qed.

Lemma int32be_Raise (b : bytes) (e : exn) : int32be b = Raise e → e = IndexError.
Proof. destruct b as [|x [|y [|z [|w r]]]]; by intros [= <-]. Qed.

Lemma read_index_Raise (n : nat) idx f e :
  closed f = false → read_index n idx f = Raise e → e = IndexError.
Proof.
  revert idx f. induction n as [|n IH]; intros idx f Hcl H; [discriminate|].
  unfold read_index in H; fold read_index in H.
  apply bind_Raise in H as [H|([b1 f1] & Hr1 & H)];
    [apply read_Raise in H; congruence|]. cbn beta iota in H.
  apply bind_Raise in H as [H|(cp & _ & H)]; [by apply int32be_Raise in H|].
  apply bind_Raise in H as [H|([b2 f2] & Hr2 & H)];
    [apply read_Raise in H; apply read_frame in Hr1 as (_ & _ & ? & _); congruence|].
  cbn beta iota in H.
  apply bind_Raise in H as [H|(cm & _ & H)]; [by apply getitem_Raise in H|].
  apply bind_Raise in H as [H|([b3 f3] & Hr3 & H)];
    [apply read_Raise in H; apply read_frame in Hr2 as (_ & _ & ? & _); congruence|].
  cbn beta iota in H.
  apply bind_Raise in H as [H|(off & _ & H)]; [by apply int32be_Raise in H|].
  apply IH in H; [done|]. by apply read_frame in Hr3 as (_ & _ & ? & _).
Qed.

Lemma set_metadata_Raise (name data : bytes) (self : PF2) (e : exn) :
  set_metadata name data self = Raise e → e = IndexError.
Proof.
  unfold set_metadata. intros H.
  repeat (destruct (bytes_eqb name _)); try discriminate;
    (apply bind_Raise in H as [H|(v & _ & H)];
     [by apply uint16be_Raise in H | discriminate]).
Qed.

Lemma dispatch_Raise rtm self name L f e :
  closed f = false → dispatch rtm self name L f = Raise e → e = IndexError.
Proof.
  intros Hcl. unfold dispatch. destruct (bytes_eqb name tag_CHIX).
  { intros H. apply bind_Raise in H as [H|([idx f3] & _ & H)];
      [by eapply read_index_Raise | discriminate]. }
  destruct (bytes_eqb name tag_DATA).
  { destruct rtm; [|discriminate]. unfold read, tell. rewrite Hcl.
    cbn. discriminate. }
  intros H. apply bind_Raise in H as [H|([data f3] & _ & H)];
    [apply read_Raise in H; congruence|]. cbn beta iota in H.
  apply bind_Raise in H as [H|(s & _ & H)];
    [by apply set_metadata_Raise in H | discriminate].
Qed.

Lemma scan_step_Raise rtm self f e :
  closed f = false → scan_step rtm self f = Raise e → e = IndexError.
Proof.
  intros Hcl. unfold scan_step. intros H.
  apply bind_Raise in H as [H|([name f1] & Hr1 & H)];
    [apply read_Raise in H; congruence|]. cbn beta iota in H.
  apply bind_Raise in H as [H|([b f2] & Hr2 & H)];
    [apply read_Raise in H; apply read_frame in Hr1 as (_ & _ & ? & _); congruence|].
  cbn beta iota in H.
  apply bind_Raise in H as [H|(L & _ & H)]; [by apply int32be_Raise in H|].
  apply dispatch_Raise in H; [done|]. by apply read_frame in Hr2 as (_ & _ & ? & _).
Qed.

Lemma scan_Raise (fuel : nat) rtm self f e :
  closed f = false → scan fuel rtm self f = Raise e → e = IndexError.
Proof.
  revert self f. induction fuel as [|fuel IH]; intros self f Hcl H; [discriminate|].
  rewrite scan_S in H.
  apply bind_Raise in H as [H|([s1 f1|s1 f1] & Hs & H)];
    [by eapply scan_step_Raise | | discriminate].
  apply scan_step_progress8 in Hs as (Hcl1 & _). by eapply IH.
Qed.

(** A length field decodes to less than 2^24 or to 2^32 or more,
    as its first byte is 0 or not. *)
Lemma int32be_below_2_pow_32 (b : bytes) (v : Z) :
  int32be b = Ok v → v < 2 ^ 32 → 0 ≤ v < 2 ^ 24.
Proof.
  intros H Hv. pose proof (int32be_Ok _ _ H) as Hl.
  destruct b as [|x [|y [|z [|w r]]]]; cbn [length] in Hl; [lia..|].
  change (int32be (x :: y :: z :: w :: r)) with (int32be [x; y; z; w]) in H.
  rewrite int32be_is_uint32be, uint32be_value in H. injection H as <-.
  pose proof (byte_val_range x). pose proof (byte_val_range y).
  pose proof (byte_val_range z). pose proof (byte_val_range w). lia.
Qed.

Lemma payload_request_decoded (f : stream) (L : Z) :
  payload_request f = Some L →
  int32be (take 4 (drop (pos f + 4) (content f))) = Ok L.
Proof.
  unfold payload_request. destruct (_ || _); [discriminate|].
  destruct (int32be _); [|discriminate..]. by intros [= ->].
Qed.

Lemma payload_requests_decoded (fuel : nat) rtm self f :
  Forall (λ L, ∃ b, int32be b = Ok L) (payload_requests fuel rtm self f).
Proof.
  revert self f. induction fuel as [|fuel IH]; intros self f; [constructor|].
  cbn [payload_requests].
  assert (Forall (λ L, ∃ b, int32be b = Ok L)
            match payload_request f with Some L => [L] | None => [] end) as Hh.
  { destruct (payload_request f) as [L|] eqn:E; [|constructor].
    apply Forall_singleton. eexists. by apply payload_request_decoded. }
  destruct (scan_step rtm self f) as [[s1 f1|s1 f1]| |]; try done.
  apply Forall_app. by split.
Qed.

(** X6: on a scan whose payload requests (line 91) are all below 2^32,
    so that each of them is in fact for less than 2^24 bytes, the only
    exception the constructor raises is [IndexError], and only on a
    file that starts with the magic: a file cut short, or whose
    sections never reach a [DATA] tag, ends in a decoder indexing past
    a short [read].  (A length field with a first byte other than 0
    decodes to 2^32 or more; what becomes of such a request is up to
    the allocator of the machine.) *)
Theorem X6_constructor_raises_only_IndexError
    (path : bytes) (read_to_mem : bool) (miss : Z) (e : exn) :
  Forall (λ L, L < 2 ^ 32)
         (payload_requests (S (length path)) read_to_mem
            (new_PF2 true miss read_to_mem) (after_magic path)) →
  __init__ path read_to_mem miss = Raise e →
  e = IndexError ∧ take 12 path = magic
  ∧ Forall (λ L, 0 ≤ L < 2 ^ 24)
           (payload_requests (S (length path)) read_to_mem
              (new_PF2 true miss read_to_mem) (after_magic path)).
Proof.
  intros Hreq. rewrite init_unfold.
  destruct (bytes_eqb (take 12 path) magic) eqn:E; [|discriminate].
  intros H. split; [by apply scan_Raise in H|].
  split; [by apply bytes_eqb_eq|].
  pose proof (payload_requests_decoded (S (length path)) read_to_mem
                (new_PF2 true miss read_to_mem) (after_magic path)) as Hdec.
  rewrite Forall_forall in *. intros L HL.
  destruct (Hdec L HL) as [b Hb]. eapply int32be_below_2_pow_32; eauto.
Qed.

Lemma X6_constructor_witness :
  __init__ (take 60 font_sample) false 63 = Raise IndexError
  ∧ IndexError = IndexError ∧ take 12 (take 60 font_sample) = magic
  ∧ Forall (λ L, 0 ≤ L < 2 ^ 24)
           (payload_requests (S (length (take 60 font_sample))) false
              (new_PF2 true 63 false) (after_magic (take 60 font_sample))).
Proof.
  split; [by_evaluation|].
  apply (X6_constructor_raises_only_IndexError (take 60 font_sample) false 63).
  - all_below_2_pow_32.
  - by_evaluation.
Defined.

(** X7: when the constructor returns, it has closed the file exactly
    when it was asked to read into memory and the file had the magic.
    In streaming mode the file stays open for the lookups, and on a
    file without the magic the constructor returns without closing the
    file it opened, in either mode. *)
Theorem X7_file_closed_only_when_buffered
    (path : bytes) (read_to_mem : bool) (miss : Z) (h : PF2) (f : stream) :
  __init__ path read_to_mem miss = Ok (h, f) →
  closed f = read_to_mem && is_pf2 h
  ∧ in_memory h = read_to_mem
  ∧ missing_character_code h = miss
  ∧ is_pf2 h = bytes_eqb (take 12 path) magic.
Proof.
  destruct read_to_mem.
  - rewrite init_modes. intros H.
    apply bind_Ok in H as ([s f1] & Hs & H). cbn beta iota in H.
    pose proof Hs as Hs'. rewrite init_unfold in Hs'.
    destruct (bytes_eqb (take 12 path) magic) eqn:E.
    + apply scan_streaming in Hs' as (_ & _ & _ & _ & _ & Hv & Hm & _).
      cbn in Hv, Hm. rewrite Hv in H. injection H as <- <-. by cbn.
    + injection Hs' as <- <-. cbn in H. injection H as <- <-. by cbn.
  - rewrite init_unfold. destruct (bytes_eqb (take 12 path) magic) eqn:E.
    + intros H. apply scan_streaming in H
        as (_ & _ & _ & _ & Hcl & Hv & Hm & Him & _).
      cbn in Hv, Hm, Him. by rewrite Hcl, Hv.
    + by intros [= <- <-].
Qed.

Lemma X7_file_closed_witness :
  (∃ h f, __init__ font_sample true 63 = Ok (h, f) ∧ closed f = true)
  ∧ (∃ h f, __init__ font_sample false 63 = Ok (h, f) ∧ closed f = false)
  ∧ (∃ h f, __init__ (drop 1 font_sample) true 63 = Ok (h, f) ∧ closed f = false).
Proof.
  split; [|split].
  - with_instance font_sample true 63 ltac:(fun h f =>
      exists h, f; split; [by_evaluation|];
      destruct (X7_file_closed_only_when_buffered font_sample true 63 h f
                  ltac:(by_evaluation)) as (-> & _)).
    reflexivity.
  - with_instance font_sample false 63 ltac:(fun h f =>
      exists h, f; split; [by_evaluation|];
      destruct (X7_file_closed_only_when_buffered font_sample false 63 h f
                  ltac:(by_evaluation)) as (-> & _)).
    reflexivity.
  - with_instance (drop 1 font_sample) true 63 ltac:(fun h f =>
      exists h, f; split; [by_evaluation|];
      destruct (X7_file_closed_only_when_buffered (drop 1 font_sample) true 63 h f
                  ltac:(by_evaluation)) as (-> & _)).
    reflexivity.
Defined.

(** X8: a valid instance exists only for a file with a [DATA] section
    header at a section boundary, and its data source starts right
    behind that header, at some byte [p] with 20 <= p: in streaming
    mode [data_io] is the open file with its cursor at [p] and the
    correction is 0; in memory mode [data_io] is a fresh [BytesIO] over
    the bytes from [p] on (whatever the length field of the [DATA]
    header says) and the correction is minus the length of the file. *)
Theorem X8_data_source_starts_behind_DATA_header
    (path : bytes) (read_to_mem : bool) (miss : Z) (h : PF2) (f : stream) :
  __init__ path read_to_mem miss = Ok (h, f) → is_pf2 h = true →
  ∃ p : nat,
    (20 ≤ p ≤ length path)%nat
    ∧ take 4 (drop (p - 8) path) = tag_DATA
    ∧ content f = path ∧ kind f = DiskFile
    ∧ (read_to_mem = false →
         pos f = p ∧ data_io h = Some f ∧ data_offset h = Some 0)
    ∧ (read_to_mem = true →
         data_io h = Some (new_BytesIO (drop p path))
         ∧ data_offset h = Some (- Z.of_nat (length path))).
Proof.
  destruct read_to_mem; intros H Hv.
  - pose proof H as H'. rewrite init_modes in H'.
    apply bind_Ok in H' as ([s fs] & Hs & H'). cbn beta iota in H'.
    destruct (is_pf2 s) eqn:Hvs.
    + pose proof (init_streaming _ _ _ _ Hs Hvs)
        as (_ & _ & Hk & Hc & _ & _ & _ & Hp & Htag).
      destruct (init_buffered _ _ _ _ Hs Hvs)
        as (hb & fb & Hb & _ & _ & _ & _ & Hdb & Hob & _).
      assert (hb = h ∧ fb = f) as [-> ->] by (split; congruence).
      injection H' as _ <-. exists (pos fs). cbn [content kind].
      repeat split; try done; lia.
    + injection H' as <- <-. cbn in Hv. congruence.
  - pose proof (init_streaming _ _ _ _ H Hv)
      as (Hd & Ho & Hk & Hc & _ & _ & _ & Hp & Htag).
    exists (pos f). repeat split; try done; lia.
Qed.

Lemma X8_data_source_witness :
  ∃ p : nat, (20 ≤ p ≤ length font_sample)%nat
    ∧ take 4 (drop (p - 8) font_sample) = tag_DATA
    ∧ data_io (opened font_sample true) = Some (new_BytesIO (drop p font_sample)).
Proof.
  with_instance font_sample true 63 ltac:(fun h f =>
    destruct (X8_data_source_starts_behind_DATA_header font_sample true 63 h f
                ltac:(by_evaluation) ltac:(by_evaluation))
      as (p & Hp & Htag & _ & _ & _ & Hmem)).
  exists p. split; [exact Hp|]. split; [exact Htag|].
  exact (proj1 (Hmem eq_refl)).
Defined.

(** ** One pass of the scan over a section *)

Lemma scan_step_section rtm self f L :
  closed f = false →
  int32be (take 4 (drop (pos f + 4) (content f))) = Ok L →
  scan_step rtm self f =
  dispatch rtm self (section_name f) L
    (Stream (kind f) (content f) (pos f + 8) false
            ((4, 4%nat) :: (4, 4%nat) :: reads f)).
Proof.
  intros Hcl HL.
  assert (pos f + 8 ≤ length (content f))%nat as Hp.
  { apply int32be_Ok in HL. rewrite length_take, length_drop in HL. lia. }
  unfold scan_step, section_name. change 4 with (Z.of_nat 4).
  rewrite read_bind by (done || lia). cbn beta iota.
  rewrite read_bind by (cbn [pos content closed]; done || lia). cbn beta iota.
  cbn [pos content kind closed reads]. rewrite HL.
  cbn beta iota delta [mbind result_bind].
  by replace (pos f + 4 + 4)%nat with (pos f + 8)%nat by lia.
Qed.

(** A section that is neither the index nor the data: the payload is
    read with one [read(L)] and handed to the chain of lines 92-109. *)
Lemma scan_step_metadata rtm self f L :
  closed f = false →
  int32be (take 4 (drop (pos f + 4) (content f))) = Ok L →
  section_name f ≠ tag_CHIX → section_name f ≠ tag_DATA →
  scan_step rtm self f =
  set_metadata (section_name f) (section_payload f L) self ≫= λ s,
    Ok (Continue s (after_section f L)).
Proof.
  intros Hcl HL Hx Hd. rewrite (scan_step_section _ _ _ L) by done.
  unfold dispatch. rewrite !bytes_eqb_neq by done.
  pose proof (int32be_nonneg _ _ HL) as HL0.
  unfold read. cbn [pos content kind closed reads].
  destruct (L <? 0) eqn:E; [lia|].
  reflexivity.
Qed.

Lemma section_payload_length (f : stream) (L : Z) :
  length (section_payload f L)
  = (Z.to_nat L `min` (length (content f) - (pos f + 8)))%nat.
Proof. unfold section_payload. by rewrite length_take, length_drop. Qed.

(** A payload whose length field decodes to less than 2^32 is shorter
    than 2^24 bytes. *)
Lemma payload_below_2_pow_24 (f : stream) (L : Z) :
  int32be (take 4 (drop (pos f + 4) (content f))) = Ok L → L < 2 ^ 32 →
  Z.of_nat (length (section_payload f L)) < 2 ^ 24.
Proof.
  intros HL Hlt. pose proof (int32be_below_2_pow_32 _ _ HL Hlt) as Hr.
  rewrite section_payload_length. lia.
Qed.

(** X9: a pass over a section named [NAME], [FAMI], [WEIG] or [SLAN]
    stores the payload, undecoded, under [font_name], [family],
    [weight] or [slant], touches nothing else and leaves the cursor
    behind the payload.  The payload is the [L] bytes behind the 8-byte
    header, [L] being the length field as [int32be] decodes it, or the
    rest of the file if that is shorter.  This is for a length field
    that decodes to less than 2^32, which is one whose first byte is 0:
    the request of line 91 is then for less than 2^24 bytes. *)
Theorem X9_string_sections_store_the_payload
    (read_to_mem : bool) (self : PF2) (f : stream) (L : Z)
    (tag : bytes) (set : bytes → PF2 → PF2) :
  closed f = false →
  int32be (take 4 (drop (pos f + 4) (content f))) = Ok L →
  L < 2 ^ 32 →
  (tag, set) ∈ [(tag_NAME, set_font_name); (tag_FAMI, set_family);
                (tag_WEIG, set_weight); (tag_SLAN, set_slant)] →
  section_name f = tag →
  scan_step read_to_mem self f
    = Ok (Continue (set (section_payload f L) self) (after_section f L))
  ∧ length (section_payload f L)
    = (Z.to_nat L `min` (length (content f) - (pos f + 8)))%nat
  ∧ Z.of_nat (length (section_payload f L)) < 2 ^ 24.
Proof.
  intros Hcl HL Hlt Hin Htag.
  split; [|split; [apply section_payload_length|by apply payload_below_2_pow_24]].
  rewrite !elem_of_cons, elem_of_nil in Hin.
  destruct Hin as [[= -> ->]|[[= -> ->]|[[= -> ->]|[[= -> ->]|[]]]]];
    (rewrite (scan_step_metadata _ _ _ L);
     [by rewrite Htag | done | done | by rewrite Htag | by rewrite Htag]).
Qed.

Lemma X9_string_sections_witness :
  scan_step false (new_PF2 true 63 false) (after_magic font_sample)
  = Ok (Continue (set_font_name [x48; x69] (new_PF2 true 63 false))
                 (after_section (after_magic font_sample) 2)).
Proof.
  destruct (X9_string_sections_store_the_payload
              false (new_PF2 true 63 false) (after_magic font_sample) 2
              tag_NAME set_font_name) as [H _].
  - reflexivity.
  - by_evaluation.
  - reflexivity.
  - apply elem_of_cons. by left.
  - by_evaluation.
  - exact H.
Defined.

(** X10: a pass over a section named [PTSZ], [MAXW], [MAXH], [ASCE] or
    [DESC] stores under [point_size], [max_width], [max_height],
    [ascent] or [descent] the unsigned big-endian value of the first
    two payload bytes and skips the whole payload; when the payload
    has fewer than two bytes (a length field below 2, or the end of the
    file) the pass raises [IndexError].  This is for a length field
    that decodes to less than 2^32, as in X9. *)
Theorem X10_numeric_sections_decode_two_bytes
    (read_to_mem : bool) (self : PF2) (f : stream) (L : Z)
    (tag : bytes) (set : Z → PF2 → PF2) :
  closed f = false →
  int32be (take 4 (drop (pos f + 4) (content f))) = Ok L →
  L < 2 ^ 32 →
  (tag, set) ∈ [(tag_PTSZ, set_point_size); (tag_MAXW, set_max_width);
                (tag_MAXH, set_max_height); (tag_ASCE, set_ascent);
                (tag_DESC, set_descent)] →
  section_name f = tag →
  ((2 ≤ length (section_payload f L))%nat →
     scan_step read_to_mem self f
       = Ok (Continue (set (be_unsigned (take 2 (section_payload f L))) self)
                      (after_section f L)))
  ∧ ((length (section_payload f L) < 2)%nat →
     scan_step read_to_mem self f = Raise IndexError)
  ∧ Z.of_nat (length (section_payload f L)) < 2 ^ 24.
Proof.
  intros Hcl HL Hlt Hin Htag.
  assert (scan_step read_to_mem self f =
          uint16be (section_payload f L) ≫= λ v,
            Ok (Continue (set v self) (after_section f L))) as ->.
  { rewrite !elem_of_cons, elem_of_nil in Hin.
    destruct Hin as [[= -> ->]|[[= -> ->]|[[= -> ->]|[[= -> ->]|[[= -> ->]|[]]]]]];
      (rewrite (scan_step_metadata _ _ _ L);
       [ rewrite Htag; unfold set_metadata;
         cbn [bytes_eqb tag_NAME tag_FAMI tag_WEIG tag_SLAN tag_PTSZ tag_MAXW
              tag_MAXH tag_ASCE tag_DESC Byte.eqb andb];
         by destruct (uint16be (section_payload f L))
       | done | done | by rewrite Htag | by rewrite Htag]). }
  split; [|split; [|by apply payload_below_2_pow_24]]; intros Hlen.
  - by rewrite uint16be_first_two.
  - by rewrite uint16be_short.
Qed.

Lemma X10_numeric_sections_witness :
  scan_step false (new_PF2 true 63 false)
            (Stream DiskFile font_sample 22 false [])
  = Ok (Continue (set_point_size 16 (new_PF2 true 63 false))
                 (after_section (Stream DiskFile font_sample 22 false []) 2)).
Proof.
  destruct (X10_numeric_sections_decode_two_bytes
              false (new_PF2 true 63 false)
              (Stream DiskFile font_sample 22 false []) 2
              tag_PTSZ set_point_size) as [H _].
  - reflexivity.
  - by_evaluation.
  - reflexivity.
  - apply elem_of_cons. by left.
  - by_evaluation.
  - apply H. vm_compute. lia.
Defined.

(** X11: a pass over a section whose name is none of the eleven the
    scanner knows reads the payload and drops it: the instance is
    unchanged and the cursor stands behind the payload.  This is for a
    length field that decodes to less than 2^32, as in X9. *)
Theorem X11_unknown_sections_are_skipped
    (read_to_mem : bool) (self : PF2) (f : stream) (L : Z) :
  closed f = false →
  int32be (take 4 (drop (pos f + 4) (content f))) = Ok L →
  L < 2 ^ 32 →
  section_name f ∉ known_tags →
  scan_step read_to_mem self f = Ok (Continue self (after_section f L))
  ∧ pos (after_section f L)
    = (pos f + 8 + Z.to_nat L `min` (length (content f) - (pos f + 8)))%nat
  ∧ Z.of_nat (length (section_payload f L)) < 2 ^ 24.
Proof.
  intros Hcl HL Hlt Hn. unfold known_tags in Hn.
  rewrite !not_elem_of_cons in Hn.
  destruct Hn as (? & ? & ? & ? & ? & ? & ? & ? & ? & ? & ? & _).
  split; [|split].
  - rewrite (scan_step_metadata _ _ _ L) by done.
    unfold set_metadata. by rewrite !bytes_eqb_neq by done.
  - unfold after_section. cbn [pos]. by rewrite section_payload_length.
  - by apply payload_below_2_pow_24.
Qed.

Lemma X11_unknown_sections_witness :
  scan_step false (new_PF2 true 63 false)
            (open_rb ([x58; x58; x58; x58; x00; x00; x00; x03; x01; x02; x03] ++ tag_DATA))
  = Ok (Continue (new_PF2 true 63 false)
         (after_section
            (open_rb ([x58; x58; x58; x58; x00; x00; x00; x03; x01; x02; x03] ++ tag_DATA)) 3))
  ∧ pos (after_section
           (open_rb ([x58; x58; x58; x58; x00; x00; x00; x03; x01; x02; x03] ++ tag_DATA)) 3)
    = 11%nat.
Proof.
  destruct (X11_unknown_sections_are_skipped false (new_PF2 true 63 false)
              (open_rb ([x58; x58; x58; x58; x00; x00; x00; x03; x01; x02; x03] ++ tag_DATA)) 3)
    as (H & Hp & _).
  - reflexivity.
  - by_evaluation.
  - reflexivity.
  - unfold known_tags. rewrite !not_elem_of_cons.
    repeat split; try (intros E; vm_compute in E; discriminate E).
    apply not_elem_of_nil.
  - split; [exact H|]. rewrite Hp. reflexivity.
Defined.

(** ** The index *)

Lemma read_index_size (n : nat) idx f idx' f' :
  read_index n idx f = Ok (idx', f') → (size idx' ≤ size idx + n)%nat.
Proof.
  revert idx f. induction n as [|n IH]; intros idx f H.
  - injection H as <- _. lia.
  - unfold read_index in H; fold read_index in H.
    apply bind_Ok in H as ([b1 f1] & _ & H). cbn beta iota in H.
    apply bind_Ok in H as (cp & _ & H).
    apply bind_Ok in H as ([b2 f2] & _ & H). cbn beta iota in H.
    apply bind_Ok in H as (cm & _ & H).
    apply bind_Ok in H as ([b3 f3] & _ & H). cbn beta iota in H.
    apply bind_Ok in H as (off & _ & H).
    apply IH in H.
    pose proof (map_size_insert cp (cm, off) idx) as Hs.
    destruct (idx !! cp); cbn in Hs; lia.
Qed.

(** X12: a pass over a [CHIX] section replaces the index instead of
    adding to it: the dictionary it assigns is built from the empty one
    out of the records of this section alone, so it is the same
    whatever the instance held before, anything an earlier [CHIX]
    section stored is gone, and it has at most L // 9 entries. *)
Theorem X12_index_section_replaces_the_index
    (read_to_mem : bool) (self : PF2) (f : stream) (L : Z) (self' : PF2) (f' : stream) :
  closed f = false →
  int32be (take 4 (drop (pos f + 4) (content f))) = Ok L →
  section_name f = tag_CHIX →
  scan_step read_to_mem self f = Ok (Continue self' f') →
  ∃ index,
    self' = set_character_index index self
    ∧ (size index ≤ Z.to_nat (L / 9))%nat
    ∧ ∀ rtm2 self2,
        scan_step rtm2 self2 f = Ok (Continue (set_character_index index self2) f').
Proof.
  intros Hcl HL Htag H.
  rewrite (scan_step_section _ _ _ L) in H by done.
  rewrite Htag in H. unfold dispatch in H. rewrite bytes_eqb_refl in H.
  apply bind_Ok in H as ([index f3] & Hri & H). cbn beta iota in H.
  injection H as <- <-. exists index. split; [done|]. split.
  - apply read_index_size in Hri. change (4 + 1 + 4) with 9 in Hri.
    rewrite map_size_empty in Hri. lia.
  - intros rtm2 self2. rewrite (scan_step_section _ _ _ L) by done.
    rewrite Htag. unfold dispatch. rewrite bytes_eqb_refl. by rewrite Hri.
Qed.

Lemma X12_index_section_witness :
  ∃ index f',
    scan_step false (set_character_index {[ 7 := (1, 2) ]} (new_PF2 true 63 false))
              (Stream DiskFile font_sample 32 false [])
    = Ok (Continue (set_character_index index (new_PF2 true 63 false)) f')
    ∧ index !! 7 = None ∧ (size index ≤ 2)%nat.
Proof.
  pose (f := Stream DiskFile font_sample 32 false []).
  pose (s := set_character_index {[ 7 := (1, 2) ]} (new_PF2 true 63 false)).
  let r := eval vm_compute in (scan_step false s f) in
  lazymatch r with
  | Ok (Continue ?s' ?f') =>
      destruct (X12_index_section_replaces_the_index false s f 18 s' f'
                  eq_refl ltac:(by_evaluation) ltac:(by_evaluation)
                  ltac:(by_evaluation))
        as (index & Hs & Hsize & Hany);
      exists index, f'
  end.
  split; [|split].
  - assert (Hidx : character_index (set_character_index index s) = Some index)
      by reflexivity.
    rewrite <- Hs in Hidx. vm_compute in Hidx. injection Hidx as <-.
    by_evaluation.
  - assert (Hidx : character_index (set_character_index index s) = Some index)
      by reflexivity.
    rewrite <- Hs in Hidx. vm_compute in Hidx. injection Hidx as <-.
    by_evaluation.
  - exact Hsize.
Defined.

Lemma read_index_fold (n : nat) idx f idx' f' :
  read_index n idx f = Ok (idx', f') →
  idx' = foldl (λ m r, <[r.1 := r.2]> m) idx
               (index_records n (drop (pos f) (content f))).
Proof.
  revert idx f. induction n as [|n IH]; intros idx f H.
  - by injection H as <- _.
  - unfold read_index in H; fold read_index in H.
    apply bind_Ok in H as ([b1 f1] & Hr1 & H). cbn beta iota in H.
    apply bind_Ok in H as (cp & Hcp & H).
    apply bind_Ok in H as ([b2 f2] & Hr2 & H). cbn beta iota in H.
    apply bind_Ok in H as (cm & Hcm & H).
    apply bind_Ok in H as ([b3 f3] & Hr3 & H). cbn beta iota in H.
    apply bind_Ok in H as (off & Hoff & H).
    apply (read_sized 4) in Hr1 as (-> & _ & ->); [|apply int32be_Ok in Hcp; lia].
    apply (read_sized 1) in Hr2 as (-> & _ & ->); [|apply getitem0_Ok in Hcm; lia].
    apply (read_sized 4) in Hr3 as (-> & _ & ->); [|apply int32be_Ok in Hoff; lia].
    apply IH in H. cbn [pos content kind closed reads] in *.
    rewrite H. cbn [index_records foldl fst snd].
    set (c := content f) in *. set (p := pos f) in *.
    assert (int32be_value (take 4 (drop p c)) = cp) as ->.
    { unfold int32be_value. by rewrite Hcp. }
    match goal with
    | |- context [default 0 ?t] => assert (default 0 t = cm) as ->
    end.
    { unfold getitem in Hcm. unfold bytes in *. rewrite lookup_take in Hcm.
      destruct (decide (0 < 1)%nat) as [_|?]; [|lia].
      rewrite lookup_drop in Hcm. rewrite lookup_drop.
      replace (p + 4 + 0)%nat with (p + 4)%nat in Hcm by lia.
      destruct (c !! (p + 4)%nat); [by injection Hcm as <- | discriminate]. }
    match goal with
    | |- context [int32be_value ?t] => assert (int32be_value t = off) as ->
    end.
    { rewrite drop_drop. unfold int32be_value.
      replace (p + 5)%nat with (p + 4 + 1)%nat by lia. by rewrite Hoff. }
    rewrite drop_drop. by replace (p + 9)%nat with (p + 4 + 1 + 4)%nat by lia.
Qed.

Lemma fold_insert_lookup (recs : list (Z * (Z * Z))) (idx : gmap Z (Z * Z)) (cp : Z) :
  foldl (λ m r, <[r.1 := r.2]> m) idx recs !! cp
  = match last_entry cp recs with Some e => Some e | None => idx !! cp end.
Proof.
  induction recs as [|r recs IH] using rev_ind; [done|].
  unfold last_entry. rewrite !foldl_app. cbn [foldl].
  rewrite lookup_insert. fold (last_entry cp recs).
  destruct (decide (r.1 = cp)); [done|]. exact IH.
Qed.

(** X13: the dictionary the index loop builds answers, for every code
    point, with the entry of the last record (in file order) that
    carries this code point, and with what the dictionary held before
    when no record does: a repeated code point overwrites, it neither
    raises nor keeps the first.  Code point and offset of a record are
    what [int32be] makes of its bytes 0-3 and 5-8, the compression is
    byte 4. *)
Theorem X13_index_holds_the_last_record_of_each_code_point
    (n : nat) (idx : gmap Z (Z * Z)) (f : stream)
    (idx' : gmap Z (Z * Z)) (f' : stream) (cp : Z) :
  read_index n idx f = Ok (idx', f') →
  idx' !! cp
  = match last_entry cp (index_records n (drop (pos f) (content f))) with
    | Some e => Some e
    | None => idx !! cp
    end.
Proof.
  intros H. rewrite (read_index_fold _ _ _ _ _ H). apply fold_insert_lookup.
Qed.

Lemma X13_index_witness :
  ∃ idx' f',
    read_index 2 ∅ (open_rb [x00; x00; x00; x41; x00; x00; x00; x00; x01;
                             x00; x00; x00; x41; x05; x00; x00; x00; x02])
    = Ok (idx', f')
    ∧ idx' !! 65 = Some (5, 2) ∧ idx' !! 66 = None.
Proof.
  pose (f := open_rb [x00; x00; x00; x41; x00; x00; x00; x00; x01;
                      x00; x00; x00; x41; x05; x00; x00; x00; x02]).
  let e := constr:(∅ : gmap Z (Z * Z)) in
  let r := eval vm_compute in (read_index 2 e f) in
  lazymatch r with
  | Ok (?i, ?f') =>
      exists i, f'; split; [by_evaluation|];
      pose proof (X13_index_holds_the_last_record_of_each_code_point
                    2 e f i f' 65 ltac:(by_evaluation)) as H65;
      pose proof (X13_index_holds_the_last_record_of_each_code_point
                    2 e f i f' 66 ltac:(by_evaluation)) as H66
  end.
  split; [rewrite H65 | rewrite H66]; reflexivity.
Defined.

(** ** What every instance satisfies *)

Lemma int32be_range (b : bytes) (v : Z) : int32be b = Ok v → 0 ≤ v < 2 ^ 40.
Proof.
  intros H. pose proof (int32be_Ok _ _ H) as Hl.
  destruct b as [|x [|y [|z [|w r]]]]; cbn [length] in Hl; [lia..|].
  change (int32be (x :: y :: z :: w :: r)) with (int32be [x; y; z; w]) in H.
  rewrite int32be_is_uint32be, uint32be_value in H. injection H as <-.
  pose proof (byte_val_range x). pose proof (byte_val_range y).
  pose proof (byte_val_range z). pose proof (byte_val_range w). lia.
Qed.

Lemma read_index_in_range (n : nat) idx f idx' f' :
  index_in_range idx → read_index n idx f = Ok (idx', f') → index_in_range idx'.
Proof.
  revert idx f. induction n as [|n IH]; intros idx f Hin H.
  - by injection H as <- _.
  - unfold read_index in H; fold read_index in H.
    apply bind_Ok in H as ([b1 f1] & _ & H). cbn beta iota in H.
    apply bind_Ok in H as (cp & Hcp & H).
    apply bind_Ok in H as ([b2 f2] & _ & H). cbn beta iota in H.
    apply bind_Ok in H as (cm & Hcm & H).
    apply bind_Ok in H as ([b3 f3] & _ & H). cbn beta iota in H.
    apply bind_Ok in H as (off & Hoff & H).
    apply IH in H; [done|].
    intros k c o Hk. apply lookup_insert_Some in Hk as [[<- [= <- <-]]|[_ Hk]];
      [|by apply Hin].
    apply int32be_range in Hcp. apply int32be_range in Hoff.
    unfold getitem in Hcm. destruct (b2 !! 0%nat) as [x|]; [|discriminate].
    injection Hcm as <-. pose proof (byte_val_range x). done.
Qed.

Lemma new_PF2_in_range (valid : bool) (miss : Z) (rtm : bool) :
  instance_in_range (new_PF2 valid miss rtm).
Proof. by repeat split. Qed.

Lemma set_metadata_in_range (name data : bytes) (self s : PF2) :
  instance_in_range self → set_metadata name data self = Ok s →
  instance_in_range s.
Proof.
  intros (Hi & Hp & Hw & Hh & Ha & Hd). unfold set_metadata. intros H.
  repeat (destruct (bytes_eqb name _));
    try (apply bind_Ok in H as (v & Hv%uint16be_nonneg & H));
    injection H as <-; unfold instance_in_range; split_and!;
    first [assumption | by intros v' [= <-]].
Qed.

Lemma dispatch_in_range rtm self name L f c :
  instance_in_range self → dispatch rtm self name L f = Ok c →
  match c with Continue s _ | Break s _ => instance_in_range s end.
Proof.
  intros Hin. pose proof Hin as (Hi & Hp & Hw & Hh & Ha & Hd).
  unfold dispatch. destruct (bytes_eqb name tag_CHIX).
  { intros H. apply bind_Ok in H as ([idx f3] & Hri & H). injection H as <-.
    apply read_index_in_range in Hri; [|done].
    unfold instance_in_range; split_and!; try assumption.
    by intros index [= <-]. }
  destruct (bytes_eqb name tag_DATA).
  { destruct rtm.
    - intros H. apply bind_Ok in H as ([rest f3] & _ & H). cbn beta iota zeta in H.
      apply bind_Ok in H as (p & _ & H). injection H as <-.
      unfold instance_in_range; split_and!; assumption.
    - intros [= <-]. unfold instance_in_range; split_and!; assumption. }
  intros H. apply bind_Ok in H as ([data f3] & _ & H). cbn beta iota in H.
  apply bind_Ok in H as (s & Hs & H). injection H as <-.
  by eapply set_metadata_in_range.
Qed.

Lemma scan_in_range (fuel : nat) rtm self f h f' :
  instance_in_range self → scan fuel rtm self f = Ok (h, f') →
  instance_in_range h.
Proof.
  revert self f. induction fuel as [|fuel IH]; intros self f Hin H; [discriminate|].
  rewrite scan_S in H. apply bind_Ok in H as (c & Hstep & H).
  apply scan_step_Ok in Hstep as (_ & _ & L & _ & Hd).
  apply dispatch_in_range in Hd; [|done].
  destruct c as [s1 f1|s1 f1]; [by eapply IH | by injection H as <- _].
Qed.

Lemma init_in_range (path : bytes) rtm miss h f :
  __init__ path rtm miss = Ok (h, f) → instance_in_range h.
Proof.
  intros H. rewrite init_unfold in H. destruct (bytes_eqb (take 12 path) magic).
  - eapply scan_in_range; [|exact H]. apply new_PF2_in_range.
  - injection H as <- _. apply new_PF2_in_range.
Qed.

(** X14: the numbers in an instance the constructor returns are
    bounded, whatever the file holds: code points and offsets in the
    index lie in [0, 2^40) (never negative), the compression bytes in
    [0, 256), and each of [point_size], [max_width], [max_height],
    [ascent] and [descent] that was assigned in [0, 65536). *)
Theorem X14_instance_numbers_are_in_range
    (path : bytes) (read_to_mem : bool) (miss : Z) (h : PF2) (f : stream) :
  __init__ path read_to_mem miss = Ok (h, f) →
  (∀ index cp c k,
     character_index h = Some index → index !! cp = Some (c, k) →
     0 ≤ cp < 2 ^ 40 ∧ 0 ≤ c < 256 ∧ 0 ≤ k < 2 ^ 40)
  ∧ (∀ v, point_size h = Some v ∨ max_width h = Some v
          ∨ max_height h = Some v ∨ ascent h = Some v ∨ descent h = Some v →
          0 ≤ v < 65536).
Proof.
  intros H.
  assert (instance_in_range h) as (Hi & Hp & Hw & Hh & Ha & Hd).
  { rewrite init_unfold in H. destruct (bytes_eqb (take 12 path) magic).
    - eapply scan_in_range; [|exact H]. apply new_PF2_in_range.
    - injection H as <- _. apply new_PF2_in_range. }
  split.
  - intros index cp c k Hidx. by apply Hi.
  - intros v [H1|[H1|[H1|[H1|H1]]]];
      [by apply Hp | by apply Hw | by apply Hh | by apply Ha | by apply Hd].
Qed.

Lemma X14_instance_witness :
  (∀ index cp c k,
     character_index (opened font_16M false) = Some index →
     index !! cp = Some (c, k) →
     0 ≤ cp < 2 ^ 40 ∧ 0 ≤ c < 256 ∧ 0 ≤ k < 2 ^ 40)
  ∧ point_size (opened font_sample false) = Some 16.
Proof.
  split.
  - with_instance font_16M false 63 ltac:(fun h f =>
      exact (proj1 (X14_instance_numbers_are_in_range font_16M false 63 h f
                      ltac:(by_evaluation)))).
  - by_evaluation.
Defined.

(** ** The outcomes of a lookup *)

Lemma entry_for_spec (index : gmap Z (Z * Z)) (miss cp : Z) :
  match index !! cp with
  | Some info => Ok info
  | None => match index !! miss with
            | Some info => Ok info
            | None => Raise KeyError
            end
  end
  = match entry_for index miss cp with
    | Some info => Ok info
    | None => Raise KeyError
    end.
Proof. unfold entry_for. by destruct (index !! cp). Qed.

(** The exceptions of a lookup, case by case. *)
Lemma get_char_Raise_table (self : PF2) (cp : Z) (e : exn) :
  get_char self cp = Raise e →
  match character_index self with
  | None => e = AttributeError
  | Some index =>
      match entry_for index (missing_character_code self) cp with
      | None => e = KeyError
      | Some (c, k) =>
          match data_io self, data_offset self with
          | Some d, Some corr =>
              if closed d then e = ValueError
              else if k + corr <? 0 then
                e = match kind d with DiskFile => OSError | BytesIO => ValueError end
              else
                e = IndexError
                ∧ (length (content d) < Z.to_nat (k + corr) + 10)%nat
          | _, _ => e = AttributeError
          end
      end
  end.
Proof.
  intros H. pose proof H as H0. unfold get_char in H.
  destruct (character_index self) as [index|] eqn:Hidx;
    [|by injection H as <-].
  cbn beta iota delta [mbind result_bind attr] in H.
  rewrite entry_for_spec in H.
  destruct (entry_for index (missing_character_code self) cp) as [[c k]|] eqn:He;
    [|by injection H as <-].
  cbn beta iota delta [mbind result_bind] in H.
  destruct (data_io self) as [d|] eqn:Hd; [|by injection H as <-].
  cbn beta iota delta [mbind result_bind attr] in H.
  destruct (data_offset self) as [corr|] eqn:Hcorr; [|by injection H as <-].
  cbn beta iota delta [mbind result_bind attr] in H.
  destruct (closed d) eqn:Hcl.
  { unfold seek in H. rewrite Hcl in H. by injection H as <-. }
  destruct (k + corr <? 0) eqn:Hneg.
  { unfold seek in H. rewrite Hcl, Hneg in H. by injection H as <-. }
  assert (e = IndexError) as ->.
  { unfold seek in H. rewrite Hcl, Hneg in H.
    cbn beta iota delta [mbind result_bind] in H.
    apply bind_Raise in H as [H|([b1 d1] & Hr1 & H)];
      [by apply read_Raise in H|]. cbn beta iota in H.
    apply bind_Raise in H as [H|(w & _ & H)]; [by apply uint16be_Raise in H|].
    apply read_frame in Hr1 as (_ & _ & Hc1 & _).
    apply bind_Raise in H as [H|([b2 d2] & Hr2 & H)];
      [apply read_Raise in H; congruence|]. cbn beta iota in H.
    apply bind_Raise in H as [H|(h & _ & H)]; [by apply uint16be_Raise in H|].
    apply read_frame in Hr2 as (_ & _ & Hc2 & _).
    apply bind_Raise in H as [H|([b3 d3] & Hr3 & H)];
      [apply read_Raise in H; congruence|]. cbn beta iota in H.
    apply bind_Raise in H as [H|(xo & _ & H)]; [by apply int16be_Raise in H|].
    apply read_frame in Hr3 as (_ & _ & Hc3 & _).
    apply bind_Raise in H as [H|([b4 d4] & Hr4 & H)];
      [apply read_Raise in H; congruence|]. cbn beta iota in H.
    apply bind_Raise in H as [H|(yo & _ & H)]; [by apply int16be_Raise in H|].
    apply read_frame in Hr4 as (_ & _ & Hc4 & _).
    apply bind_Raise in H as [H|([b5 d5] & Hr5 & H)];
      [apply read_Raise in H; congruence|]. cbn beta iota in H.
    apply bind_Raise in H as [H|(dw & _ & H)]; [by apply int16be_Raise in H|].
    apply read_frame in Hr5 as (_ & _ & Hc5 & _).
    apply bind_Raise in H as [H|([bm d6] & Hr6 & H)];
      [apply read_Raise in H; congruence | discriminate]. }
  split; [done|].
  destruct (Nat.le_gt_cases (Z.to_nat (k + corr) + 10) (length (content d)))
    as [Hle|Hgt]; [|lia].
  destruct (get_char_returns self cp index c k d corr) as (g & Hg & _);
    try done; [lia|congruence].
Qed.



Lemma entry_for_Some (index : gmap Z (Z * Z)) (miss cp c k : Z) :
  entry_for index miss cp = Some (c, k) → ∃ key, index !! key = Some (c, k).
Proof.
  unfold entry_for. destruct (index !! cp) eqn:E; [intros [= ->]; eauto | eauto].
Qed.

(** X16: on an instance built in streaming mode, with the file still
    open, a lookup whose code point (or, failing that, the
    missing-character code point) has an index entry with offset [k]
    returns the glyph record at byte [k] of the file exactly when the
    ten header bytes [k .. k + 9] lie inside the file, and raises
    [IndexError] otherwise.  Offsets are never negative, so such a
    lookup never raises [OSError]. *)
Theorem X16_streaming_lookup_returns_iff_header_in_file
    (path : bytes) (miss : Z) (h : PF2) (f : stream)
    (index : gmap Z (Z * Z)) (cp c k : Z) :
  __init__ path false miss = Ok (h, f) →
  character_index h = Some index →
  entry_for index miss cp = Some (c, k) →
  0 ≤ k
  ∧ ((Z.to_nat k + 10 ≤ length path)%nat →
       ∃ g h', get_char h cp = Ok (g, h') ∧ decoded_at path (Z.to_nat k) g)
  ∧ ((length path < Z.to_nat k + 10)%nat → get_char h cp = Raise IndexError).
Proof.
  intros Hinit Hidx He.
  pose proof (init_index_valid _ _ _ _ _ _ Hinit Hidx) as Hv.
  pose proof (init_streaming _ _ _ _ Hinit Hv)
    as (Hd & Hcorr & _ & Hc & Hcl & Hm & _).
  pose proof (init_in_range _ _ _ _ _ Hinit) as (Hi & _).
  destruct (entry_for_Some _ _ _ _ _ He) as (key & Hkey).
  destruct (Hi index Hidx key c k Hkey) as (_ & _ & Hk & _).
  rewrite <- Hm in He.
  split; [done|]. split.
  - intros Hlen.
    destruct (get_char_returns h cp index c k f 0) as (g & Hg & Hdec); try done.
    + lia.
    + by rewrite Z.add_0_r, Hc.
    + rewrite Z.add_0_r, Hc in Hdec. eauto.
  - intros Hlen.
    destruct (get_char h cp) as [[g h']|e|] eqn:Hg.
    + apply get_char_Ok in Hg
        as (i' & c' & k' & d & corr & Hi' & He' & Hd' & Hc' & _ & _ & Hl & _).
      assert (i' = index) as -> by congruence.
      assert (d = f) as -> by congruence.
      assert (corr = 0) as -> by congruence.
      assert (k' = k) as -> by congruence.
      rewrite Z.add_0_r, Hc in Hl. lia.
    + apply get_char_Raise_table in Hg.
      rewrite Hidx, He, Hd, Hcorr, Hcl in Hg.
      destruct (k + 0 <? 0) eqn:E; [lia|]. by destruct Hg as [-> _].
    + by apply get_char_not_Diverge in Hg.
Qed.

Lemma X16_streaming_lookup_witness :
  (∃ g h', get_char (opened font_sample false) 66 = Ok (g, h')
           ∧ decoded_at font_sample 66 g)
  ∧ get_char (opened (take 85 font_sample) false) 65 = Raise IndexError.
Proof.
  split.
  - with_instance font_sample false 63 ltac:(fun h f =>
      let i := eval vm_compute in (character_index h) in
      lazymatch i with
      | Some ?idx =>
          destruct (X16_streaming_lookup_returns_iff_header_in_file
                      font_sample 63 h f idx 66 0 66
                      ltac:(by_evaluation) ltac:(by_evaluation)
                      ltac:(by_evaluation)) as (_ & Hret & _)
      end).
    apply Hret. vm_compute. lia.
  - with_instance (take 85 font_sample) false 63 ltac:(fun h f =>
      let i := eval vm_compute in (character_index h) in
      lazymatch i with
      | Some ?idx =>
          destruct (X16_streaming_lookup_returns_iff_header_in_file
                      (take 85 font_sample) 63 h f idx 65 0 78
                      ltac:(by_evaluation) ltac:(by_evaluation)
                      ltac:(by_evaluation)) as (_ & _ & Hraise)
      end).
    apply Hraise. vm_compute. lia.
Defined.

Lemma set_data_io_twice (d1 d2 : stream) (self : PF2) :
  set_data_io d2 (set_data_io d1 self) = set_data_io d2 self.
Proof. reflexivity. Qed.

(** X17: lookups do not disturb each other and change nothing but the
    cursor.  After any number of lookups that returned, the instance is
    the original one except for [data_io], which is the same open file
    object over the same bytes, and every lookup gives the glyph, or
    raises the exception, it would have given on the original
    instance. *)
Theorem X17_lookups_change_only_the_cursor (h h' : PF2) :
  after_lookups h h' →
  (h' = h
   ∨ ∃ d d', data_io h = Some d ∧ h' = set_data_io d' h
             ∧ same_source d' d ∧ closed d' = false)
  ∧ ∀ cp, glyph_of (get_char h' cp) = glyph_of (get_char h cp).
Proof.
  intros Hl.
  assert (h' = h
          ∨ ∃ d d', data_io h = Some d ∧ h' = set_data_io d' h
                    ∧ same_source d' d ∧ closed d' = false) as Hshape.
  { induction Hl as [|h1 cp g h2 _ IH Hg]; [by left|]. right.
    apply get_char_Ok in Hg
      as (index & c & k & d1 & corr & _ & _ & Hd1 & _ & Hcl1 & _ & _ & _ & ->).
    destruct IH as [->|(d & d' & Hd & -> & (Hk & Hc & Hcl) & Hcl')].
    - exists d1, (after_lookup d1 (Z.to_nat (k + corr)) g).
      split; [done|]. split; [done|]. by repeat split.
    - cbn in Hd1. injection Hd1 as <-.
      exists d, (after_lookup d' (Z.to_nat (k + corr)) g).
      split; [done|]. split; [by rewrite set_data_io_twice|].
      unfold same_source, after_lookup. cbn [kind content closed].
      repeat split; congruence. }
  split; [done|]. intros cp.
  destruct Hshape as [->|(d & d' & Hd & -> & Hs & _)]; [done|].
  by apply (get_char_same_source h d).
Qed.

Lemma X17_lookups_witness :
  ∃ g1 h1 g2 h2,
    get_char (opened font_sample false) 63 = Ok (g1, h1)
    ∧ get_char h1 65 = Ok (g2, h2)
    ∧ glyph_of (get_char h2 63) = glyph_of (get_char (opened font_sample false) 63).
Proof.
  with_instance font_sample false 63 ltac:(fun h f =>
    let r1 := eval vm_compute in (get_char h 63) in
    lazymatch r1 with
    | Ok (?g1, ?h1) =>
        let r2 := eval vm_compute in (get_char h1 65) in
        lazymatch r2 with
        | Ok (?g2, ?h2) =>
            exists g1, h1, g2, h2;
            assert (Hl : after_lookups h h2)
              by (apply (lookups_more h h1 65 g2 h2);
                  [apply (lookups_more h h 63 g1 h1);
                   [apply lookups_none | by_evaluation]
                  | by_evaluation]);
            destruct (X17_lookups_change_only_the_cursor h h2 Hl) as (_ & Hsame)
        end
    end).
  split; [by_evaluation|]. split; [by_evaluation|]. apply Hsame.
Defined.

Ltac agree_pair :=
  eapply agree_bind; [apply agree_refl|]; intros [? ?] ? <-.

(** X18: a lookup never consults the compression byte of an index
    entry.  Two indexes with the same offsets under the same code
    points give, on otherwise equal instances, the same glyph or the
    same exception for every code point, whatever compression bytes
    they hold: the bitmap bytes of a glyph filed as compressed are
    returned as they are in the file. *)
Theorem X18_compression_byte_is_ignored
    (self : PF2) (index1 index2 : gmap Z (Z * Z)) (cp : Z) :
  snd <$> index1 = snd <$> index2 →
  glyph_of (get_char (set_character_index index1 self) cp)
  = glyph_of (get_char (set_character_index index2 self) cp).
Proof.
  intros Hoff.
  assert (∀ key, snd <$> (index1 !! key) = snd <$> (index2 !! key)) as Hkey.
  { intros key. by rewrite <- !lookup_fmap, Hoff. }
  apply agree_eq. unfold glyph_of, get_char.
  eapply agree_bind with (R := λ x y, x.1 = y.1);
    [|by intros [g1 s1] [g2 s2] [= ->]].
  cbn [character_index set_character_index missing_character_code
       data_io data_offset attr mbind result_bind].
  eapply agree_bind with (R := λ x y, x.2 = y.2).
  { pose proof (Hkey cp) as H1.
    pose proof (Hkey (missing_character_code self)) as H2.
    destruct (index1 !! cp) as [[? ?]|], (index2 !! cp) as [[? ?]|];
      try discriminate; [by injection H1|].
    destruct (index1 !! missing_character_code self) as [[? ?]|],
             (index2 !! missing_character_code self) as [[? ?]|];
      try discriminate; [by injection H2 | done]. }
  intros [c1 k1] [c2 k2] Hk. cbn [snd] in Hk. subst k2.
  agree_pure. agree_pure. agree_pure.
  agree_pair. agree_pure.
  agree_pair. agree_pure.
  agree_pair. agree_pure.
  agree_pair. agree_pure.
  agree_pair. agree_pure.
  agree_pair. done.
Qed.

Lemma X18_compression_witness :
  glyph_of (get_char (set_character_index {[ 65 := (0, 78) ]}
                        (opened font_sample false)) 65)
  = glyph_of (get_char (set_character_index {[ 65 := (1, 78) ]}
                          (opened font_sample false)) 65).
Proof.
  apply X18_compression_byte_is_ignored. by_evaluation.
Defined.

Lemma int16be_range (b : bytes) (v : Z) : int16be b = Ok v → -32768 ≤ v < 32768.
Proof.
  intros H. pose proof (int16be_Ok _ _ H) as (x & y & r & ->).
  change (int16be (x :: y :: r)) with (int16be [x; y]) in H.
  rewrite int16be_correct in H. injection H as <-.
  apply twos_complement16_range. unfold be_unsigned. cbn [fold_left].
  pose proof (byte_val_range x). pose proof (byte_val_range y). lia.
Qed.

(** X19: the fields of every glyph a lookup returns are bounded: width
    and height lie in [0, 65536), the two offsets and the device width
    in [-32768, 32768), and [bitmap_data] has at most
    (width * height + 7) // 8 bytes, which is at most 536854529. *)
Theorem X19_glyph_fields_are_bounded
    (self : PF2) (cp : Z) (g : Character) (self' : PF2) :
  get_char self cp = Ok (g, self') →
  0 ≤ width g < 65536 ∧ 0 ≤ height g < 65536
  ∧ -32768 ≤ x_offset g < 32768 ∧ -32768 ≤ y_offset g < 32768
  ∧ -32768 ≤ device_width g < 32768
  ∧ Z.of_nat (length (bitmap_data g)) ≤ (width g * height g + 7) / 8
  ∧ (width g * height g + 7) / 8 ≤ 536854529.
Proof.
  intros H. apply get_char_Ok in H
    as (index & c & k & d & corr & _ & _ & _ & _ & _ & _ & _ & Hdec & _).
  destruct Hdec as (Hw%uint16be_nonneg & Hh%uint16be_nonneg & Hx%int16be_range
                    & Hy%int16be_range & Hdw%int16be_range & Hbm).
  repeat (split; [lia|]).
  assert (0 ≤ (width g * height g + 7) / 8) as Hn by (apply Z.div_pos; nia).
  split.
  - rewrite Hbm, length_take. lia.
  - apply Z.div_le_upper_bound; [lia|]. nia.
Qed.

Lemma X19_glyph_fields_witness :
  ∃ g h', get_char (opened font_sample false) 63 = Ok (g, h')
          ∧ -32768 ≤ y_offset g < 32768 ∧ y_offset g = -1.
Proof.
  with_instance font_sample false 63 ltac:(fun h f =>
    let r := eval vm_compute in (get_char h 63) in
    lazymatch r with
    | Ok (?g, ?h') =>
        exists g, h';
        destruct (X19_glyph_fields_are_bounded h 63 g h' ltac:(by_evaluation))
          as (_ & _ & _ & Hy & _)
    end).
  split; [by_evaluation|]. split; [exact Hy | reflexivity].
Defined.

(** X20: in streaming mode nothing can be looked up after [close]: on
    the instance [close] returns no lookup returns a glyph, and a
    lookup whose code point resolves to an index entry raises
    [ValueError].  [close] itself changes nothing but the open state of
    the file: index, metadata and correction stay. *)
Theorem X20_no_streaming_lookup_after_close
    (self : PF2) (d : stream) :
  in_memory self = false → data_io self = Some d →
  ∃ self1,
    close self = Ok self1
    ∧ self1 = set_data_io (close_stream d) self
    ∧ ∀ cp,
        is_ok (get_char self1 cp) = false
        ∧ ∀ index c k corr,
            character_index self = Some index →
            entry_for index (missing_character_code self) cp = Some (c, k) →
            data_offset self = Some corr →
            get_char self1 cp = Raise ValueError.
Proof.
  intros Hm Hd. exists (set_data_io (close_stream d) self).
  split.
  { unfold close. rewrite Hm, Hd. reflexivity. }
  split; [done|]. intros cp. split.
  - destruct (get_char _ cp) as [[g s]| |] eqn:Hg; [|done..].
    apply get_char_Ok in Hg
      as (index & c & k & d1 & corr & _ & _ & Hd1 & _ & Hcl & _).
    cbn in Hd1. injection Hd1 as <-. discriminate Hcl.
  - intros index c k corr Hidx He Hcorr.
    destruct (get_char (set_data_io (close_stream d) self) cp) as [[g s]|e|] eqn:Hg.
    + apply get_char_Ok in Hg
        as (? & ? & ? & d1 & ? & _ & _ & Hd1 & _ & Hcl & _).
      cbn in Hd1. injection Hd1 as <-. discriminate Hcl.
    + apply get_char_Raise_table in Hg.
      cbn [character_index set_data_io missing_character_code data_io
           data_offset] in Hg.
      rewrite Hidx, He, Hcorr in Hg. cbn in Hg. by rewrite Hg.
    + by apply get_char_not_Diverge in Hg.
Qed.

Lemma X20_after_close_witness :
  ∃ self1, close (opened font_sample false) = Ok self1
           ∧ get_char self1 65 = Raise ValueError.
Proof.
  with_instance font_sample false 63 ltac:(fun h f =>
    let i := eval vm_compute in (character_index h) in
    lazymatch i with
    | Some ?idx =>
        destruct (X20_no_streaming_lookup_after_close h f
                    ltac:(by_evaluation) ltac:(by_evaluation))
          as (self1 & Hc & _ & Hl);
        exists self1; split; [exact Hc|];
        exact (proj2 (Hl 65) idx 0 78 0
                 ltac:(by_evaluation) ltac:(by_evaluation) ltac:(by_evaluation))
    end).
Defined.

(** ** Where the 32-bit decoder is right, and what the two modes share *)

Lemma twos_complement32_small (u : Z) :
  0 ≤ u < 2 ^ 31 → twos_complement 32 u = u.
Proof.
  intros Hu. unfold twos_complement. change (32 - 1) with 31.
  rewrite Z.testbit_odd, Z.shiftr_div_pow2 by lia.
  by rewrite Z.div_small.
Qed.

Lemma twos_complement32_bounds (u : Z) :
  0 ≤ u < 2 ^ 32 → - 2 ^ 31 ≤ twos_complement 32 u < 2 ^ 31.
Proof.
  intros Hu. unfold twos_complement. change (32 - 1) with 31.
  rewrite Z.testbit_odd, Z.shiftr_div_pow2 by lia.
  assert (u < 2 ^ 31 ∨ 2 ^ 31 ≤ u) as [H|H] by lia.
  - rewrite Z.div_small by lia. cbn. lia.
  - replace (u `div` 2 ^ 31) with 1.
    + cbn. lia.
    + apply Z.div_unique with (r := u - 2 ^ 31); lia.
Qed.

(** X21: [int32be] returns the signed big-endian value of its four
    bytes exactly when the first byte is 0, that is for the values in
    [0, 2^24): every Unicode code point and every offset below 16 MiB
    is decoded as the format means it, and every other field is not. *)
Theorem X21_int32be_is_right_exactly_below_2_pow_24 (a b c d : byte) :
  int32be [a; b; c; d] = Ok (twos_complement 32 (be_unsigned [a; b; c; d]))
  ↔ a = x00.
Proof.
  rewrite int32be_is_uint32be, uint32be_value, be_unsigned_4.
  pose proof (byte_val_range a). pose proof (byte_val_range b).
  pose proof (byte_val_range c). pose proof (byte_val_range d).
  split.
  - intros [= Heq]. apply byte_val_zero.
    pose proof (twos_complement32_bounds
                  (byte_val a * 2 ^ 24 + byte_val b * 2 ^ 16
                   + byte_val c * 2 ^ 8 + byte_val d) ltac:(lia)) as Hb.
    lia.
  - intros ->. change (byte_val x00) with 0. f_equal.
    rewrite twos_complement32_small; lia.
Qed.

(** X22: the two modes of the constructor scan alike.  When the
    streaming constructor returns an instance for a file with the
    magic, the buffered one returns an instance with the same index and
    the same nine metadata attributes; the instances differ in
    [in_memory], [data_io] and [data_offset] only.  And when one of the
    two raises, the other raises the same exception. *)
Theorem X22_both_modes_build_the_same_index_and_metadata
    (path : bytes) (miss : Z) :
  (∀ hs fs, __init__ path false miss = Ok (hs, fs) → is_pf2 hs = true →
     ∃ hb fb,
       __init__ path true miss = Ok (hb, fb)
       ∧ character_index hb = character_index hs
       ∧ font_name hb = font_name hs ∧ family hb = family hs
       ∧ weight hb = weight hs ∧ slant hb = slant hs
       ∧ point_size hb = point_size hs ∧ max_width hb = max_width hs
       ∧ max_height hb = max_height hs ∧ ascent hb = ascent hs
       ∧ descent hb = descent hs
       ∧ is_pf2 hb = true ∧ missing_character_code hb = missing_character_code hs)
  ∧ (∀ e, __init__ path true miss = Raise e ↔ __init__ path false miss = Raise e).
Proof.
  split.
  - intros hs fs H Hv. rewrite init_modes, H.
    cbn beta iota delta [mbind result_bind]. rewrite Hv.
    eexists _, _. split; [reflexivity|]. by repeat split.
  - intros e. rewrite init_modes.
    destruct (__init__ path false miss) as [[s f]| |]; [|done..].
    cbn beta iota delta [mbind result_bind]. by destruct (is_pf2 s).
Qed.

Lemma X22_both_modes_witness :
  (∃ hb fb, __init__ font_sample true 63 = Ok (hb, fb)
            ∧ character_index hb = character_index (opened font_sample false)
            ∧ font_name hb = Some [x48; x69])
  ∧ __init__ (take 60 font_sample) true 63 = Raise IndexError.
Proof.
  destruct (X22_both_modes_build_the_same_index_and_metadata font_sample 63)
    as (Hsame & _).
  destruct (X22_both_modes_build_the_same_index_and_metadata (take 60 font_sample) 63)
    as (_ & Hraise).
  split.
  - with_instance font_sample false 63 ltac:(fun h f =>
      destruct (Hsame h f ltac:(by_evaluation) ltac:(by_evaluation))
        as (hb & fb & Hb & Hidx & Hname & _)).
    exists hb, fb. split; [exact Hb|]. split; [exact Hidx|].
    rewrite Hname. by_evaluation.
  - apply Hraise. by_evaluation.
Defined.
